(** * Flow: seal mempool gate, chunk verifier, chunk data pack requester and
    consensus payload builder

    A shallow embedding of the sealing and verification core of flow-go:

    - [SealPool]: the wrapper [approvals.IncorporatedResultSeals] around the
      seal mempool (at least two receipts from different execution nodes);
    - [Verifier]: [chunks.ChunkVerifier] ([Verify], [SystemChunkVerify],
      [verifyTransactionsInContext]);
    - [Requester]: the chunk data pack requester engine
      ([handleChunkDataPack], [onTimer], [handleChunkDataPackRequest]);
    - [Builder]: the seal and receipt selection of the consensus payload
      builder.

    The definitions come first, one module per Go package; the theorems
    follow, one section per package. Logging, tracing and metrics are left
    out of the embedding. *)

From stdpp Require Import gmap list strings pretty.

(** ** Common vocabulary *)

(** [flow.Identifier]: a 32-byte hash, read as a number. *)
Abbreviation Identifier := N (only parsing).

(** [flow.StateCommitment] and [ledger.State]: 32-byte root hashes. *)
Abbreviation StateCommitment := N (only parsing).

(** A Go call that returns [(value, error)]. *)
Inductive result (A : Type) : Type :=
| Ok (a : A)
| Err (msg : string).
Arguments Ok {A} a.
Arguments Err {A} msg%_string.

(** A Go call that either returns or does not come back: a run-time panic
    (nil dereference) or [log.Fatal], which ends the process. *)
Inductive outcome (A : Type) : Type :=
| Returns (a : A)
| Panics
| Fatal.
Arguments Returns {A} a.
Arguments Panics {A}.
Arguments Fatal {A}.

(** [flow.Entity]: everything that has an [ID()]. The identifier is a
    cryptographic hash of the content, so it is an interface here. *)
Class Entity (A : Type) := ID : A → Identifier.

Module Flow.

(** [flow.Chunk], reduced to the fields the verifier reads. *)
Record Chunk := {
  Index : N;
  StartState : StateCommitment;
  EndState : StateCommitment;
}.

(** [flow.ExecutionResult]. *)
Record ExecutionResult := {
  PreviousResultID : Identifier;
  BlockID : Identifier;
  Chunks : list Chunk;
}.

(** [flow.ExecutionReceipt]. *)
Record ExecutionReceipt := {
  ExecutorID : Identifier;
  Result : ExecutionResult;
}.

(** [flow.Seal]. *)
Record Seal := {
  SealBlockID : Identifier;
  SealResultID : Identifier;
  FinalState : StateCommitment;
}.

(** [flow.IncorporatedResult]. *)
Record IncorporatedResult := {
  IncorporatedBlockID : Identifier;
  IncResult : ExecutionResult;
}.

(** [flow.IncorporatedResultSeal]. *)
Record IncorporatedResultSeal := {
  TheSeal : Seal;
  TheIncorporatedResult : IncorporatedResult;
}.

(** [flow.Header], reduced to what the engines read. *)
Record Header := {
  HeaderParentID : Identifier;
  Height : N;
}.

End Flow.

(** ** Package approvals: the seal mempool wrapper *)

Module SealPool.
Import Flow.

Section Wrapper.
Context `{Entity ExecutionResult}.

(** Modelled from the spec: [flow.ExecutionReceiptList.GroupBy] and the
    grouped list it returns are not among the sources. A grouped list maps a
    group identifier to the receipts of that group, in their order. *)
Definition GroupBy (grouper : ExecutionReceipt → Identifier)
    (l : list ExecutionReceipt) : gmap Identifier (list ExecutionReceipt) :=
  foldl (λ groups rcpt,
           <[grouper rcpt := default [] (groups !! grouper rcpt) ++ [rcpt]]> groups)
        ∅ l.

(** Modelled from the spec: [ExecutionReceiptList.GroupByResultID], not among the
    sources: the receipts grouped by the ID of their result. *)
Definition GroupByResultID : list ExecutionReceipt → gmap Identifier (list ExecutionReceipt) :=
  GroupBy (λ rcpt, ID (Result rcpt)).

(** Modelled from the spec: [ExecutionReceiptList.GroupByExecutorID], not among
    the sources: the receipts grouped by the execution node that signed them. *)
Definition GroupByExecutorID : list ExecutionReceipt → gmap Identifier (list ExecutionReceipt) :=
  GroupBy ExecutorID.

(** Modelled from the spec: [ExecutionReceiptGroupedList.GetGroup], not among the
    sources: the receipts of one group, none if there is no such group. *)
Definition GetGroup (g : gmap Identifier (list ExecutionReceipt)) (groupID : Identifier)
    : list ExecutionReceipt :=
  default [] (g !! groupID).

(** Modelled from the spec: [ExecutionReceiptGroupedList.NumberGroups], not among
    the sources: the number of groups. *)
Definition NumberGroups (g : gmap Identifier (list ExecutionReceipt)) : nat := size g.

(** [storage.ExecutionReceipts], reduced to [ByBlockID]. *)
Definition ReceiptsStore := Identifier → result (list ExecutionReceipt).

(** The wrapper. Both fields hold interface values; [receiptsDB] is [None]
    when the interface value is nil. *)
Record IncorporatedResultSeals := {
  seals : gmap Identifier IncorporatedResultSeal;
  receiptsDB : option ReceiptsStore;
}.

(** The constructor sets [seals] only. *)
Definition NewIncorporatedResultSeals (mempool : gmap Identifier IncorporatedResultSeal)
    : IncorporatedResultSeals :=
  {| seals := mempool; receiptsDB := None |}.

Definition resultHasMultipleReceipts (ir : IncorporatedResultSeals)
    (incorporatedResult : IncorporatedResult) : outcome bool :=
  let blockID := BlockID (IncResult incorporatedResult) in
  let resultID := ID (IncResult incorporatedResult) in
  match receiptsDB ir with
  | None => Panics
  | Some db =>
      match db blockID with
      | Err _ => Returns false
      | Ok receipts =>
          let receiptsForIncorporatedResults := GetGroup (GroupByResultID receipts) resultID in
          Returns (bool_decide
                     (2 ≤ NumberGroups (GroupByExecutorID receiptsForIncorporatedResults)))
      end
  end.

(** [ByID]: [Returns None] is the Go pair [(nil, false)], [Returns (Some s)]
    is [(s, true)]. *)
Definition ByID (ir : IncorporatedResultSeals) (id : Identifier)
    : outcome (option IncorporatedResultSeal) :=
  match seals ir !! id with
  | None => Returns None
  | Some seal =>
      match resultHasMultipleReceipts ir (TheIncorporatedResult seal) with
      | Returns true => Returns (Some seal)
      | Returns false => Returns None
      | Panics => Panics
      | Fatal => Fatal
      end
  end.

(** The receipts of [receipts] that commit to the result [resultID], and the
    execution nodes that signed them. *)
Definition committing (receipts : list ExecutionReceipt) (resultID : Identifier)
    : list ExecutionReceipt :=
  filter (λ rcpt, ID (Result rcpt) = resultID) receipts.

Definition executors (receipts : list ExecutionReceipt) : gset Identifier :=
  list_to_set (ExecutorID <$> receipts).

(** What the test at the end of [resultHasMultipleReceipts] stands for: two
    receipts of the block commit to the result and come from different
    execution nodes. *)
Definition twoExecutors (receipts : list ExecutionReceipt) (resultID : Identifier) : Prop :=
  ∃ r1 r2, r1 ∈ receipts ∧ r2 ∈ receipts
           ∧ ID (Result r1) = resultID ∧ ID (Result r2) = resultID
           ∧ ExecutorID r1 ≠ ExecutorID r2.

End Wrapper.
End SealPool.

(** ** Package chunks: the chunk verifier *)

Module Verifier.
Import Flow.

(** [flow.RegisterID]. *)
Record RegisterID := {
  Owner : string;
  Controller : string;
  Key : string;
}.

#[global] Instance RegisterID_eq_dec : EqDecision RegisterID.
Proof. solve_decision. Defined.

#[global] Instance RegisterID_countable : Countable RegisterID.
Proof.
  refine (inj_countable' (λ r, (Owner r, Controller r, Key r))
                         (λ t, Build_RegisterID t.1.1 t.1.2 t.2) _).
  by intros [].
Defined.

(** [flow.RegisterValue], a byte slice. *)
Abbreviation RegisterValue := (list Byte.byte) (only parsing).

(** [ledger.Key]: a list of typed key parts. *)
Record KeyPart := {
  KeyPartType : N;
  KeyPartValue : list Byte.byte;
}.
Abbreviation LedgerKey := (list KeyPart) (only parsing).

(** The errors of the partial ledger: [ledger.ErrMissingKeys], which names
    the keys the proof does not cover, and any other failure. *)
Inductive LedgerError :=
| ErrMissingKeys (keys : list LedgerKey)
| ErrLedger (msg : string).

Inductive ledger_result (A : Type) : Type :=
| LOk (a : A)
| LErr (e : LedgerError).
Arguments LOk {A} a.
Arguments LErr {A} e.

(** [ledger.Query] and [ledger.Update]. *)
Record Query := {
  QueryState : StateCommitment;
  QueryKeys : list LedgerKey;
}.

Record Update := {
  UpdateState : StateCommitment;
  UpdateKeys : list LedgerKey;
  UpdateValues : list RegisterValue;
}.

(** [partial.Ledger], the partial trie built from a proof. [getRegister]
    only ever asks for a single key; [psmt_Get] answers such a query with the
    value of that key, [psmt_Set] answers an update with the new root. *)
Record PartialLedger := {
  psmt_Get : Query → ledger_result RegisterValue;
  psmt_Set : Update → ledger_result StateCommitment;
}.

(** What a view feeds to its SPoCK hasher, in order: the register of a read,
    the register and value of a write, the secret of a merged child. *)
Inductive SpockWrite :=
| SpockRead (r : RegisterID)
| SpockSet (r : RegisterID) (v : RegisterValue)
| SpockMerge (secret : list Byte.byte).

(** [flow.TransactionBody], reduced to a script and its arguments. *)
Record TransactionBody := {
  Script : string;
  Arguments_ : list string;
}.

(** [fvm.TransactionProcedure], as [fvm.Transaction(txBody, index)] builds
    it. *)
Record TransactionProcedure := {
  Transaction : TransactionBody;
  TxIndex : N;
}.

(** The collaborators the verifier calls and the sources do not define: the
    ledger's key encoding and proof decoding, the renderings used in fault
    reports, the program cache and system transaction of the FVM, and the
    hash behind the SPoCK secret. *)
Class Externals := {
  RegisterIDToKey : RegisterID → LedgerKey;
  Key_String : LedgerKey → string;
  RegisterID_String : RegisterID → string;
  NewLedger : list Byte.byte → StateCommitment → N → result PartialLedger;
  DefaultPathFinderVersion : N;
  Programs : Type;
  NewEmptyPrograms : Programs;
  SystemChunkTransaction : N → TransactionBody;
  SpockHash : list SpockWrite → list Byte.byte;
}.

(** The transaction processors a context can hold: the invocator
    [fvm.NewTransactionInvocator] builds, or any other. *)
Inductive TransactionProcessor :=
| TransactionInvocator
| OtherProcessor (name : string).

(** Modelled from the spec: [fvm.Context] and its options are not among the
    sources. The context is reduced to what the verifier sets: the block
    header, the restrictions on account creation and deployment, the
    collection of service events and the transaction processors. *)
Record Context := {
  ServiceAddress : N;
  BlockHeader : option Header;
  RestrictedAccountCreationEnabled : bool;
  RestrictedDeploymentEnabled : bool;
  ServiceEventCollectionEnabled : bool;
  TransactionProcessors : list TransactionProcessor;
}.

(** Modelled from the spec: [fvm.Option], not among the sources: a change to a
    context. *)
Definition Option := Context → Context.

(** Modelled from the spec: [fvm.NewContextFromParent], not among the sources:
    the parent context with the options applied in order. *)
Definition NewContextFromParent (parent : Context) (opts : list Option) : Context :=
  foldl (λ ctx opt, opt ctx) parent opts.

(** Modelled from the spec: [fvm.WithBlockHeader], not among the sources. *)
Definition WithBlockHeader (header : Header) : Option := λ ctx,
  {| ServiceAddress := ServiceAddress ctx;
     BlockHeader := Some header;
     RestrictedAccountCreationEnabled := RestrictedAccountCreationEnabled ctx;
     RestrictedDeploymentEnabled := RestrictedDeploymentEnabled ctx;
     ServiceEventCollectionEnabled := ServiceEventCollectionEnabled ctx;
     TransactionProcessors := TransactionProcessors ctx |}.

(** Modelled from the spec: [fvm.WithRestrictedAccountCreation], not among the
    sources. *)
Definition WithRestrictedAccountCreation (enabled : bool) : Option := λ ctx,
  {| ServiceAddress := ServiceAddress ctx;
     BlockHeader := BlockHeader ctx;
     RestrictedAccountCreationEnabled := enabled;
     RestrictedDeploymentEnabled := RestrictedDeploymentEnabled ctx;
     ServiceEventCollectionEnabled := ServiceEventCollectionEnabled ctx;
     TransactionProcessors := TransactionProcessors ctx |}.

(** Modelled from the spec: [fvm.WithRestrictedDeployment], not among the
    sources. *)
Definition WithRestrictedDeployment (enabled : bool) : Option := λ ctx,
  {| ServiceAddress := ServiceAddress ctx;
     BlockHeader := BlockHeader ctx;
     RestrictedAccountCreationEnabled := RestrictedAccountCreationEnabled ctx;
     RestrictedDeploymentEnabled := enabled;
     ServiceEventCollectionEnabled := ServiceEventCollectionEnabled ctx;
     TransactionProcessors := TransactionProcessors ctx |}.

(** Modelled from the spec: [fvm.WithServiceEventCollectionEnabled], not among
    the sources. *)
Definition WithServiceEventCollectionEnabled : Option := λ ctx,
  {| ServiceAddress := ServiceAddress ctx;
     BlockHeader := BlockHeader ctx;
     RestrictedAccountCreationEnabled := RestrictedAccountCreationEnabled ctx;
     RestrictedDeploymentEnabled := RestrictedDeploymentEnabled ctx;
     ServiceEventCollectionEnabled := true;
     TransactionProcessors := TransactionProcessors ctx |}.

(** Modelled from the spec: [fvm.WithTransactionProcessors], not among the
    sources. *)
Definition WithTransactionProcessors (processors : list TransactionProcessor) : Option := λ ctx,
  {| ServiceAddress := ServiceAddress ctx;
     BlockHeader := BlockHeader ctx;
     RestrictedAccountCreationEnabled := RestrictedAccountCreationEnabled ctx;
     RestrictedDeploymentEnabled := RestrictedDeploymentEnabled ctx;
     ServiceEventCollectionEnabled := ServiceEventCollectionEnabled ctx;
     TransactionProcessors := processors |}.

(** [flow.ChunkDataPack]; [PackStartState] and [PackProof] are its
    [StartState] and [Proof]. *)
Record ChunkDataPack := {
  ChunkID : Identifier;
  PackStartState : StateCommitment;
  PackProof : list Byte.byte;
  CollectionID : Identifier;
}.

(** [flow.Collection]. *)
Record Collection := {
  Transactions : list TransactionBody;
}.

(** [verification.VerifiableChunkData]. [ChunkDataPack_] is a pointer the
    verifier tests against nil. *)
Record VerifiableChunkData := {
  IsSystemChunk : bool;
  Chunk_ : Chunk;
  Header_ : Header;
  Result_ : ExecutionResult;
  Collection_ : Collection;
  ChunkDataPack_ : option ChunkDataPack;
  VCEndState : StateCommitment;
}.

(** [chmodels.ChunkFault]: the three faults the verifier builds, with the
    arguments of their constructors in the order of the calls. *)
Inductive ChunkFault :=
| CFInvalidVerifiableChunk (reason : string) (err : string) (chIndex : N) (execResID : Identifier)
| CFMissingRegisterTouch (regsIDs : list string) (chIndex : N) (execResID : Identifier)
| CFNonMatchingFinalState (first second : StateCommitment) (chIndex : N) (execResID : Identifier).

(** The three values [Verify] returns: SPoCK secret, fault, error. *)
Definition Verdict : Type := option (list Byte.byte) * option ChunkFault * option string.

(** [return spock, nil, nil], [return nil, fault, nil] and
    [return nil, nil, err]. *)
Definition passed (spock : list Byte.byte) : Verdict := (Some spock, None, None).
Definition faulty (fault : ChunkFault) : Verdict := (None, Some fault, None).
Definition failed (err : string) : Verdict := (None, None, Some err).

Section Execution.
Context `{Externals} `{Entity ExecutionResult}.

(** Modelled from the spec: [ledger.NewQuery] and [ledger.NewUpdate] are not
    among the sources. A query is always built; an update needs as many
    values as keys. *)
Definition NewQuery (sc : StateCommitment) (keys : list LedgerKey) : result Query :=
  Ok {| QueryState := sc; QueryKeys := keys |}.

Definition NewUpdate (sc : StateCommitment) (keys : list LedgerKey)
    (values : list RegisterValue) : result Update :=
  if decide (length keys = length values)
  then Ok {| UpdateState := sc; UpdateKeys := keys; UpdateValues := values |}
  else Err "length mismatch between keys and values".

(** Modelled from the spec: [delta.View] is not among the sources. A view
    holds the registers written through it, the set of touched registers,
    the number of reads it passed to its read function, and what was fed to
    its SPoCK hasher. The read function of a root view is the closure given
    to [delta.NewView]; that of a child is its parent's [Get]. *)
Record View := {
  delta : gmap RegisterID RegisterValue;
  regTouchSet : gmap string RegisterID;
  readsCount : nat;
  spockSecretHasher : list SpockWrite;
}.

(** Modelled from the spec: [delta.NewView], not among the sources: an empty
    view. *)
Definition NewView : View :=
  {| delta := ∅; regTouchSet := ∅; readsCount := 0; spockSecretHasher := [] |}.

(** Modelled from the spec: [View.NewChild], not among the sources: an empty
    view that reads through its parent. *)
Definition NewChild (parent : View) : View := NewView.

(** Modelled from the spec: [View.SpockSecret], not among the sources: the hash
    of what the view fed to its hasher. *)
Definition SpockSecret (v : View) : list Byte.byte := SpockHash (spockSecretHasher v).

(** Modelled from the spec: [View.Get], not among the sources. A register
    written through the view is answered from its delta; any other is asked
    from the read function, and counted and remembered as touched when that
    succeeds. Every read that succeeds goes to the hasher. *)
Definition View_Get {St : Type} (readFunc : RegisterID → St → result RegisterValue * St)
    (r : RegisterID) (v : View) (s : St) : result RegisterValue * View * St :=
  match delta v !! r with
  | Some value =>
      (Ok value,
       {| delta := delta v; regTouchSet := regTouchSet v; readsCount := readsCount v;
          spockSecretHasher := spockSecretHasher v ++ [SpockRead r] |}, s)
  | None =>
      match readFunc r s with
      | (Err e, s') => (Err ("get register failed: " +:+ e), v, s')
      | (Ok value, s') =>
          (Ok value,
           {| delta := delta v;
              regTouchSet := <[RegisterID_String r := r]> (regTouchSet v);
              readsCount := S (readsCount v);
              spockSecretHasher := spockSecretHasher v ++ [SpockRead r] |}, s')
      end
  end.

(** Modelled from the spec: [View.Set], not among the sources: the write goes to
    the delta, the touched registers and the hasher. *)
Definition View_Set (r : RegisterID) (value : RegisterValue) (v : View) : View :=
  {| delta := <[r := value]> (delta v);
     regTouchSet := <[RegisterID_String r := r]> (regTouchSet v);
     readsCount := readsCount v;
     spockSecretHasher := spockSecretHasher v ++ [SpockSet r value] |}.

(** Modelled from the spec: [View.Touch], not among the sources. *)
Definition View_Touch (r : RegisterID) (v : View) : View :=
  {| delta := delta v;
     regTouchSet := <[RegisterID_String r := r]> (regTouchSet v);
     readsCount := readsCount v;
     spockSecretHasher := spockSecretHasher v |}.

(** Modelled from the spec: [View.Delete], not among the sources: a write of the
    empty value. *)
Definition View_Delete (r : RegisterID) (v : View) : View := View_Set r [] v.

(** Modelled from the spec: [View.MergeView], not among the sources: the writes
    of the child go over those of the parent, its touches and reads are
    added, and its secret goes to the hasher of the parent. *)
Definition MergeView (v child : View) : result View :=
  Ok {| delta := delta child ∪ delta v;
        regTouchSet := regTouchSet child ∪ regTouchSet v;
        readsCount := readsCount v + readsCount child;
        spockSecretHasher := spockSecretHasher v ++ [SpockMerge (SpockSecret child)] |}.

(** Modelled from the spec: [Delta.RegisterUpdates], not among the sources: the
    registers written and their values, side by side. *)
Definition RegisterUpdates (d : gmap RegisterID RegisterValue)
    : list RegisterID * list RegisterValue :=
  ((map_to_list d).*1, (map_to_list d).*2).

(** Modelled from the spec: [executionState.RegisterIDSToKeys], not among the
    sources: the ledger key of each register. *)
Definition RegisterIDSToKeys (regs : list RegisterID) : list LedgerKey :=
  RegisterIDToKey <$> regs.

(** Modelled from the spec: [executionState.RegisterValuesToValues], not among
    the sources: register values are ledger values. *)
Definition RegisterValuesToValues (values : list RegisterValue) : list RegisterValue := values.

(** What one call [vm.Run(ctx, tx, view, programs)] does, seen from the
    verifier: a sequence of calls on the view, each next call chosen from the
    answers so far, ending with the error [Run] returns and the program cache
    it leaves behind. *)
Inductive Procedure :=
| Return (err : option string) (programs : Programs)
| PGet (r : RegisterID) (k : result RegisterValue → Procedure)
| PSet (r : RegisterID) (value : RegisterValue) (k : Procedure)
| PTouch (r : RegisterID) (k : Procedure)
| PDelete (r : RegisterID) (k : Procedure).

(** The interface [VirtualMachine]. *)
Definition VirtualMachine := Context → TransactionProcedure → Programs → Procedure.

(** [ChunkVerifier]. *)
Record ChunkVerifier := {
  vm : VirtualMachine;
  vmCtx : Context;
  systemChunkCtx : Context;
}.

Definition NewChunkVerifier (vm : VirtualMachine) (vmCtx : Context) : ChunkVerifier :=
  {| vm := vm;
     vmCtx := vmCtx;
     systemChunkCtx :=
       NewContextFromParent vmCtx
         [WithRestrictedAccountCreation false;
          WithRestrictedDeployment false;
          WithServiceEventCollectionEnabled;
          WithTransactionProcessors [TransactionInvocator]] |}.

(** The variables [verifyTransactionsInContext] shares with its closure
    [getRegister]: the map [unknownRegTouch], and two histories the code does
    not keep, which the theorems speak about: the registers asked from the
    partial trie and the transactions handed to the virtual machine, both in
    order. *)
Record ExecState := {
  unknownRegTouch : gmap string LedgerKey;
  trieQueries : list RegisterID;
  vmRuns : list TransactionProcedure;
}.

Definition noExecution : ExecState :=
  {| unknownRegTouch := ∅; trieQueries := []; vmRuns := [] |}.

Definition getRegister (psmt : PartialLedger) (chunkDataPack : ChunkDataPack)
    (registerID : RegisterID) (st : ExecState) : result RegisterValue * ExecState :=
  let registerKey := RegisterIDToKey registerID in
  match NewQuery (PackStartState chunkDataPack) [registerKey] with
  | Err e => (Err ("cannot create query: " +:+ e), st)
  | Ok query =>
      let st := {| unknownRegTouch := unknownRegTouch st;
                   trieQueries := trieQueries st ++ [registerID];
                   vmRuns := vmRuns st |} in
      match psmt_Get psmt query with
      | LErr (ErrMissingKeys _) =>
          (Ok [],
           {| unknownRegTouch :=
                <[RegisterID_String registerID := registerKey]> (unknownRegTouch st);
              trieQueries := trieQueries st;
              vmRuns := vmRuns st |})
      | LErr (ErrLedger e) => (Err ("cannot query register: " +:+ e), st)
      | LOk value => (Ok value, st)
      end
  end.

(** [Get] on the chunk view, whose read function is [getRegister]. *)
Definition chunkView_Get (psmt : PartialLedger) (chunkDataPack : ChunkDataPack)
    (r : RegisterID) (s : View * ExecState) : result RegisterValue * (View * ExecState) :=
  let '(res, chunkView, st) := View_Get (getRegister psmt chunkDataPack) r s.1 s.2 in
  (res, (chunkView, st)).

(** The virtual machine runs one transaction on the child view [txView] of
    [chunkView]. *)
Fixpoint runProcedure (psmt : PartialLedger) (chunkDataPack : ChunkDataPack)
    (p : Procedure) (txView chunkView : View) (st : ExecState)
    : option string * Programs * View * View * ExecState :=
  match p with
  | Return err programs => (err, programs, txView, chunkView, st)
  | PGet r k =>
      let '(res, txView, (chunkView, st)) :=
        View_Get (chunkView_Get psmt chunkDataPack) r txView (chunkView, st) in
      runProcedure psmt chunkDataPack (k res) txView chunkView st
  | PSet r value k =>
      runProcedure psmt chunkDataPack k (View_Set r value txView) chunkView st
  | PTouch r k =>
      runProcedure psmt chunkDataPack k (View_Touch r txView) chunkView st
  | PDelete r k =>
      runProcedure psmt chunkDataPack k (View_Delete r txView) chunkView st
  end.

(** The loop over the transactions of the chunk; [i] is the index of the
    first of [transactions]. It returns the error that ends the loop early,
    if any. *)
Fixpoint executeTransactions (fcv : ChunkVerifier) (context : Context)
    (psmt : PartialLedger) (chunkDataPack : ChunkDataPack) (i : nat)
    (transactions : list TransactionProcedure) (programs : Programs)
    (chunkView : View) (st : ExecState) : option string * View * ExecState :=
  match transactions with
  | [] => (None, chunkView, st)
  | tx :: transactions =>
      let txView := NewChild chunkView in
      let st := {| unknownRegTouch := unknownRegTouch st;
                   trieQueries := trieQueries st;
                   vmRuns := vmRuns st ++ [tx] |} in
      let '(err, programs, txView, chunkView, st) :=
        runProcedure psmt chunkDataPack (vm fcv context tx programs) txView chunkView st in
      match err with
      | Some e =>
          (Some ("failed to execute transaction: " +:+ pretty i +:+ " (" +:+ e +:+ ")"),
           chunkView, st)
      | None =>
          match MergeView chunkView txView with
          | Err e =>
              (Some ("failed to execute transaction: " +:+ pretty i +:+ " (" +:+ e +:+ ")"),
               chunkView, st)
          | Ok chunkView =>
              executeTransactions fcv context psmt chunkDataPack (S i) transactions
                programs chunkView st
          end
      end
  end.

(** The part of [verifyTransactionsInContext] after the loop. *)
Definition checkEndState (psmt : PartialLedger) (chunkDataPack : ChunkDataPack)
    (chIndex : N) (execResID : Identifier) (endState : StateCommitment)
    (chunkView : View) (st : ExecState) : Verdict :=
  if decide (0 < size (unknownRegTouch st)) then
    let missingRegs := Key_String <$> (map_to_list (unknownRegTouch st)).*2 in
    faulty (CFMissingRegisterTouch missingRegs chIndex execResID)
  else
    let '(regs, values) := RegisterUpdates (delta chunkView) in
    match NewUpdate (PackStartState chunkDataPack) (RegisterIDSToKeys regs)
            (RegisterValuesToValues values) with
    | Err e => failed ("cannot create ledger update: " +:+ e)
    | Ok update =>
        match psmt_Set psmt update with
        | LErr (ErrMissingKeys keys) =>
            faulty (CFMissingRegisterTouch (Key_String <$> keys) chIndex execResID)
        | LErr (ErrLedger _) =>
            faulty (CFMissingRegisterTouch [] chIndex execResID)
        | LOk expEndStateComm =>
            if decide (expEndStateComm ≠ endState) then
              faulty (CFNonMatchingFinalState expEndStateComm endState chIndex execResID)
            else passed (SpockSecret chunkView)
        end
    end.

(** [verifyTransactionsInContext]; next to the verdict it gives the final
    state of the closure variables, [noExecution] when nothing was run. *)
Definition verifyTransactionsInContext (fcv : ChunkVerifier) (context : Context)
    (chunk : Chunk) (chunkDataPack : option ChunkDataPack) (result : ExecutionResult)
    (transactions : list TransactionProcedure) (endState : StateCommitment)
    : Verdict * ExecState :=
  let chIndex := Index chunk in
  let execResID := ID result in
  match chunkDataPack with
  | None => (failed "missing chunk data pack", noExecution)
  | Some chunkDataPack =>
      match NewLedger (PackProof chunkDataPack) (PackStartState chunkDataPack)
              DefaultPathFinderVersion with
      | Err err =>
          (faulty (CFInvalidVerifiableChunk "error constructing partial trie: " err
                     chIndex execResID), noExecution)
      | Ok psmt =>
          let programs := NewEmptyPrograms in
          let chunkView := NewView in
          let '(err, chunkView, st) :=
            executeTransactions fcv context psmt chunkDataPack 0 transactions programs
              chunkView noExecution in
          match err with
          | Some e => (failed e, st)
          | None =>
              (checkEndState psmt chunkDataPack chIndex execResID endState chunkView st, st)
          end
      end
  end.

Definition verifyTransactions (fcv : ChunkVerifier) (chunk : Chunk)
    (chunkDataPack : option ChunkDataPack) (result : ExecutionResult) (header : Header)
    (transactions : list TransactionProcedure) (endState : StateCommitment)
    : Verdict * ExecState :=
  let blockCtx := NewContextFromParent (vmCtx fcv) [WithBlockHeader header] in
  verifyTransactionsInContext fcv blockCtx chunk chunkDataPack result transactions endState.

(** [uint32(i)]. *)
Definition uint32 (i : nat) : N := (N.of_nat i mod 2 ^ 32)%N.

Definition Verify (fcv : ChunkVerifier) (vc : VerifiableChunkData) : Verdict * ExecState :=
  if IsSystemChunk vc then
    (failed "wrong method invoked for verifying system chunk", noExecution)
  else
    let transactions :=
      imap (λ i txBody, {| Transaction := txBody; TxIndex := uint32 i |})
           (Transactions (Collection_ vc)) in
    verifyTransactions fcv (Chunk_ vc) (ChunkDataPack_ vc) (Result_ vc) (Header_ vc)
      transactions (VCEndState vc).

Definition SystemChunkVerify (fcv : ChunkVerifier) (vc : VerifiableChunkData)
    : Verdict * ExecState :=
  if negb (IsSystemChunk vc) then
    (failed "wrong method invoked for verifying non-system chunk", noExecution)
  else
    let txBody := SystemChunkTransaction (ServiceAddress (vmCtx fcv)) in
    let tx := {| Transaction := txBody; TxIndex := uint32 0 |} in
    let transactions := [tx] in
    let systemChunkContext :=
      NewContextFromParent (systemChunkCtx fcv) [WithBlockHeader (Header_ vc)] in
    verifyTransactionsInContext fcv systemChunkContext (Chunk_ vc) (ChunkDataPack_ vc)
      (Result_ vc) transactions (VCEndState vc).

(** A register read is backed by the proof when the partial trie does not
    answer it with [ErrMissingKeys]. *)
Definition covered (psmt : PartialLedger) (chunkDataPack : ChunkDataPack)
    (r : RegisterID) : Prop :=
  ∀ keys, psmt_Get psmt {| QueryState := PackStartState chunkDataPack;
                           QueryKeys := [RegisterIDToKey r] |}
          ≠ LErr (ErrMissingKeys keys).

Definition uncovered (psmt : PartialLedger) (chunkDataPack : ChunkDataPack)
    (r : RegisterID) : Prop :=
  ∃ keys, psmt_Get psmt {| QueryState := PackStartState chunkDataPack;
                           QueryKeys := [RegisterIDToKey r] |}
          = LErr (ErrMissingKeys keys).

(** The update [verifyTransactionsInContext] builds from the delta of the
    chunk view. *)
Definition chunkUpdate (chunkDataPack : ChunkDataPack) (chunkView : View) : Update :=
  {| UpdateState := PackStartState chunkDataPack;
     UpdateKeys := RegisterIDSToKeys (RegisterUpdates (delta chunkView)).1;
     UpdateValues := RegisterValuesToValues (RegisterUpdates (delta chunkView)).2 |}.

(** [unknownRegTouch] follows the reads: a read the proof does not back
    leaves an entry under the name of its register, and every entry comes
    from such a read. *)
Definition tracked (psmt : PartialLedger) (chunkDataPack : ChunkDataPack)
    (st : ExecState) : Prop :=
  (∀ r, r ∈ trieQueries st → uncovered psmt chunkDataPack r →
        ∃ r', RegisterID_String r' = RegisterID_String r
              ∧ unknownRegTouch st !! RegisterID_String r = Some (RegisterIDToKey r'))
  ∧ (∀ s k, unknownRegTouch st !! s = Some k →
            ∃ r, r ∈ trieQueries st ∧ uncovered psmt chunkDataPack r
                 ∧ s = RegisterID_String r ∧ k = RegisterIDToKey r).

(** Verification passed: the partial trie was built from the proof of the
    data pack, every transaction ran, every register asked from the trie is
    backed by the proof, and the update of the chunk view moves the trie to
    the root [endState]. *)
Definition verified (fcv : ChunkVerifier) (context : Context)
    (chunkDataPack : option ChunkDataPack) (transactions : list TransactionProcedure)
    (endState : StateCommitment) (spock : list Byte.byte) (st : ExecState) : Prop :=
  ∃ cdp psmt chunkView,
    chunkDataPack = Some cdp
    ∧ NewLedger (PackProof cdp) (PackStartState cdp) DefaultPathFinderVersion = Ok psmt
    ∧ executeTransactions fcv context psmt cdp 0 transactions NewEmptyPrograms NewView
        noExecution = (None, chunkView, st)
    ∧ (∀ r, r ∈ trieQueries st → covered psmt cdp r)
    ∧ psmt_Set psmt (chunkUpdate cdp chunkView) = LOk endState
    ∧ spock = SpockSecret chunkView.

End Execution.
End Verifier.

(** ** Package requester: the chunk data pack requester engine *)

Module Requester.
Import Flow.

(** [time.Time] and [time.Duration], in nanoseconds. *)
Abbreviation Time := Z (only parsing).
Abbreviation Duration := Z (only parsing).

(** [verification.ChunkDataPackRequest]. *)
Record ChunkDataPackRequest := {
  ChunkID : Identifier;
  Height : N;
  Agrees : list Identifier;
  Disagrees : list Identifier;
}.

(** Modelled from the spec: [ChunkDataPackRequest.ID] is not among the
    sources. The mempool of requests maps the chunk ID to the request, so the
    identifier of a request is the ID of its chunk. *)
#[global] Instance ChunkDataPackRequest_ID : Entity ChunkDataPackRequest := ChunkID.

(** [messages.ChunkDataRequest]; [ReqChunkID] is its field [ChunkID]. *)
Record ChunkDataRequest := {
  ReqChunkID : Identifier;
  Nonce : N;
}.

(** [messages.ChunkDataResponse]; [RespNonce] is its field [Nonce]. *)
Record ChunkDataResponse := {
  ChunkDataPack : Verifier.ChunkDataPack;
  Collection : Verifier.Collection;
  RespNonce : N;
}.

(** The events [process] can be given. *)
Inductive Event :=
| EvChunkDataResponse (resource : ChunkDataResponse)
| EvOther (typeName : string).

(** Modelled from the spec: the mempool [mempool.ChunkRequests] is not among
    the sources. It maps a chunk ID to the request and its history
    [{attempts, lastAttempt, retryAfter}]. *)
Record ChunkRequestStatus := {
  RequestInfo : ChunkDataPackRequest;
  Attempts : N;
  LastAttempt : Time;
  RetryAfter : Duration;
}.

Abbreviation ChunkRequests := (gmap Identifier ChunkRequestStatus) (only parsing).

(** Modelled from the spec: [mempool.ChunkRequestHistoryUpdaterFunc], not among
    the sources: from [(attempts, lastAttempt, retryAfter)] to the new triple. *)
Definition ChunkRequestHistoryUpdaterFunc := N → Time → Duration → N * Time * Duration.

(** Modelled from the spec: [RequestQualifierFunc], not among the sources:
    whether a request with this history may be sent now. *)
Definition RequestQualifierFunc := N → Time → Duration → bool.

Section Mempool.
Variable initialRetry : Duration.

(** Modelled from the spec: [ChunkRequests.Add], not among the sources:
    idempotent; the history starts at [{0, epoch, initialRetry}]. *)
Definition Add (req : ChunkDataPackRequest) (m : ChunkRequests) : bool * ChunkRequests :=
  match m !! ID req with
  | Some _ => (false, m)
  | None =>
      (true, <[ID req := {| RequestInfo := req; Attempts := 0; LastAttempt := 0%Z;
                            RetryAfter := initialRetry |}]> m)
  end.

End Mempool.

(** Modelled from the spec: [ChunkRequests.Rem], not among the sources: removes
    the chunk and tells whether anything was removed. *)
Definition Rem (chunkID : Identifier) (m : ChunkRequests) : bool * ChunkRequests :=
  match m !! chunkID with
  | Some _ => (true, delete chunkID m)
  | None => (false, m)
  end.

(** Modelled from the spec: [ChunkRequests.RequestHistory], not among the
    sources: the history of the chunk, if present. *)
Definition RequestHistory (chunkID : Identifier) (m : ChunkRequests)
    : option (N * Time * Duration) :=
  (λ s, (Attempts s, LastAttempt s, RetryAfter s)) <$> m !! chunkID.

(** Modelled from the spec: [ChunkRequests.UpdateRequestHistory], not among the
    sources: applies the updater to the history of the chunk and returns the
    new history, or reports that nothing was updated. *)
Definition UpdateRequestHistory (chunkID : Identifier)
    (updater : ChunkRequestHistoryUpdaterFunc) (m : ChunkRequests)
    : option (N * Time * Duration) * ChunkRequests :=
  match m !! chunkID with
  | None => (None, m)
  | Some s =>
      let '(attempts, lastAttempt, retryAfter) :=
        updater (Attempts s) (LastAttempt s) (RetryAfter s) in
      (Some (attempts, lastAttempt, retryAfter),
       <[chunkID := {| RequestInfo := RequestInfo s; Attempts := attempts;
                       LastAttempt := lastAttempt; RetryAfter := retryAfter |}]> m)
  end.

(** Modelled from the spec: [ChunkRequests.All], not among the sources: a
    snapshot of the requests. *)
Definition All (m : ChunkRequests) : list ChunkDataPackRequest :=
  RequestInfo <$> (map_to_list m).*2.

(** Every request is filed under its own chunk ID: what [Add] keeps. *)
Definition filed (m : ChunkRequests) : Prop :=
  map_Forall (λ chunkID s, ChunkID (RequestInfo s) = chunkID) m.

(** The calls the engine makes on its handler
    ([fetcher.ChunkDataPackHandler]) and on its conduit, in order. *)
Inductive Call :=
| HandleChunkDataPack (originID : Identifier) (chunkDataPack : Verifier.ChunkDataPack)
    (collection : Verifier.Collection)
| NotifyChunkDataPackSealed (chunkID : Identifier)
| Publish (req : ChunkDataRequest) (targetIDs : list Identifier).

(** [Engine]: its configuration, and what its collaborators answer: whether
    the conduit publishes a message ([None]) or fails, the targets
    [request.SampleTargets] draws, and the numbers [rand.Uint64] gives, by
    draw. *)
Record Engine := {
  retryInterval : Duration;
  requestTargets : nat;
  reqQualifierFunc : RequestQualifierFunc;
  reqUpdaterFunc : ChunkRequestHistoryUpdaterFunc;
  con_Publish : ChunkDataRequest → list Identifier → option string;
  SampleTargets : ChunkDataPackRequest → nat → list Identifier;
  rand_Uint64 : nat → N;
}.

(** What changes while the engine runs: the mempool [pendingRequests], the
    calls made so far, and the number of random draws so far. *)
Record State := {
  pendingRequests : ChunkRequests;
  calls : list Call;
  draws : nat;
}.

Definition handleChunkDataPack (e : Engine) (originID : Identifier)
    (chunkDataPack : Verifier.ChunkDataPack) (collection : Verifier.Collection)
    (st : State) : State :=
  let chunkID := Verifier.ChunkID chunkDataPack in
  let '(removed, pending) := Rem chunkID (pendingRequests st) in
  if negb removed then st
  else
    {| pendingRequests := pending;
       calls := calls st ++ [HandleChunkDataPack originID chunkDataPack collection];
       draws := draws st |}.

Definition process (e : Engine) (originID : Identifier) (event : Event) (st : State)
    : option string * State :=
  match event with
  | EvChunkDataResponse resource =>
      (None, handleChunkDataPack e originID (ChunkDataPack resource) (Collection resource) st)
  | EvOther typeName => (Some ("invalid event type (" +:+ typeName +:+ ")"), st)
  end.

(** [Request]; [initialRetry] is the retry delay the mempool was created
    with. *)
Definition Request (initialRetry : Duration) (e : Engine) (request : ChunkDataPackRequest)
    (st : State) : State :=
  let '(added, pending) := Add initialRetry request (pendingRequests st) in
  {| pendingRequests := pending; calls := calls st; draws := draws st |}.

Definition canDispatchRequest (e : Engine) (chunkID : Identifier) (st : State) : bool :=
  match RequestHistory chunkID (pendingRequests st) with
  | None => false
  | Some (attempts, lastAttempt, retryAfter) =>
      reqQualifierFunc e attempts lastAttempt retryAfter
  end.

Definition requestChunkDataPack (e : Engine) (request : ChunkDataPackRequest) (st : State)
    : option string * State :=
  let req := {| ReqChunkID := ChunkID request; Nonce := rand_Uint64 e (draws st) |} in
  let targetIDs := SampleTargets e request (requestTargets e) in
  let st := {| pendingRequests := pendingRequests st;
               calls := calls st ++ [Publish req targetIDs];
               draws := S (draws st) |} in
  match con_Publish e req targetIDs with
  | Some err => (Some ("could not publish chunk data pack request for chunk: " +:+ err), st)
  | None => (None, st)
  end.

Definition onRequestDispatched (e : Engine) (chunkID : Identifier) (st : State)
    : option (N * Time * Duration) * State :=
  let '(updated, pending) :=
    UpdateRequestHistory chunkID (reqUpdaterFunc e) (pendingRequests st) in
  (updated, {| pendingRequests := pending; calls := calls st; draws := draws st |}).

Definition handleChunkDataPackRequest (e : Engine) (request : ChunkDataPackRequest)
    (lastSealedHeight : N) (st : State) : State :=
  if decide (Height request ≤ lastSealedHeight)%N then
    let '(removed, pending) := Rem (ID request) (pendingRequests st) in
    {| pendingRequests := pending;
       calls := calls st ++ [NotifyChunkDataPackSealed (ID request)];
       draws := draws st |}
  else
    let qualified := canDispatchRequest e (ChunkID request) st in
    if negb qualified then st
    else
      match requestChunkDataPack e request st with
      | (Some err, st) => st
      | (None, st) => (onRequestDispatched e (ChunkID request) st).2
      end.

(** [onTimer]; [sealedHead] is what [state.Sealed().Head()] answers at this
    tick. *)
Definition onTimer (e : Engine) (sealedHead : result Header) (st : State) : outcome State :=
  let pendingReqs := All (pendingRequests st) in
  match sealedHead with
  | Err _ => Fatal
  | Ok lastSealed =>
      Returns (foldl (λ st request,
                        handleChunkDataPackRequest e request (Flow.Height lastSealed) st)
                     st pendingReqs)
  end.

(** The calls made from state [st] to the later state [st']. *)
Definition callsSince (st st' : State) : list Call := drop (length (calls st)) (calls st').

(** The chunk data packs of chunk [chunkID] handed to the handler among
    [cs]. *)
Definition delivers (chunkID : Identifier) (c : Call) : bool :=
  match c with
  | HandleChunkDataPack _ chunkDataPack _ =>
      bool_decide (Verifier.ChunkID chunkDataPack = chunkID)
  | _ => false
  end.

Definition handled (chunkID : Identifier) (cs : list Call) : list Call :=
  filter (λ c, delivers chunkID c) cs.

(** The requests for chunk [chunkID] given to the conduit among [cs]. *)
Definition publishes (chunkID : Identifier) (c : Call) : bool :=
  match c with
  | Publish req _ => bool_decide (ReqChunkID req = chunkID)
  | _ => false
  end.

End Requester.

(** ** Package consensus: the payload builder *)

Module Builder.
Import Flow.

(** [flow.CollectionGuarantee]. *)
Record CollectionGuarantee := {
  CollectionID : Identifier;
  ReferenceBlockID : Identifier;
}.

(** [flow.ExecutionReceiptMeta]: a receipt without the body of its result. *)
Record ExecutionReceiptMeta := {
  MetaExecutorID : Identifier;
  ResultID : Identifier;
}.

#[global] Instance ExecutionReceiptMeta_eq_dec : EqDecision ExecutionReceiptMeta.
Proof. solve_decision. Defined.

(** [flow.Payload]. *)
Record Payload := {
  Guarantees : list CollectionGuarantee;
  Seals : list Seal;
  Receipts : list ExecutionReceiptMeta;
  Results : list ExecutionResult;
}.

(** [flow.Block]. *)
Record Block := {
  Header_ : Header;
  Payload_ : Payload;
}.

(** The configuration the test suite sets: [cfg.expiry], [cfg.maxSealCount],
    [cfg.maxReceiptCount]. *)
Record Config := {
  expiry : N;
  maxSealCount : nat;
  maxReceiptCount : nat;
}.

Section Build.
Context `{Entity ExecutionResult} `{Entity Header}.

(** Modelled from the spec: [ExecutionReceipt.Meta], not among the sources: the
    receipt with the ID of its result in place of the result. *)
Definition Meta (receipt : ExecutionReceipt) : ExecutionReceiptMeta :=
  {| MetaExecutorID := ExecutorID receipt; ResultID := ID (Result receipt) |}.

(** Modelled from the spec: the builder ([Builder.BuildOn], builder.go) is
    not among the sources, only its test suite is. What it reads: its
    configuration, the block storage, the last seal of the fork that ends at
    a block ([Seals.ByBlockID]), the three mempools (the seal pool and the
    guarantee pool by their [All()], the execution tree by its receipts, each
    with the header of the block it executes, parents first), and the receipt
    validator. *)
Record Builder := {
  cfg : Config;
  blocks : gmap Identifier Block;
  seals : Identifier → result Seal;
  guarPool : list CollectionGuarantee;
  sealPool : list IncorporatedResultSeal;
  recPool : list (ExecutionReceipt * Header);
  receiptValidator : ExecutionReceipt → bool;
}.

(** Modelled from the spec: [Blocks.ByID] of the storage, not among the sources;
    a missing block is the not-found error. *)
Definition ByID (db : gmap Identifier Block) (id : Identifier) : result Block :=
  match db !! id with
  | Some block => Ok block
  | None => Err "not found"
  end.

(** Modelled from the spec: step 1, the walk from [parentID] towards the
    last sealed block, [n] blocks long; a block missing from storage aborts
    the build. *)
Fixpoint walkBack (db : gmap Identifier Block) (id : Identifier) (n : nat)
    : result (list Block) :=
  match n with
  | 0 => Ok []
  | S n =>
      match ByID db id with
      | Err e => Err e
      | Ok block =>
          match walkBack db (HeaderParentID (Header_ block)) n with
          | Err e => Err e
          | Ok fork => Ok (block :: fork)
          end
      end
  end.

(** Modelled from the spec: step 1 (a), the collections already incorporated on
    the walked blocks. *)
Definition incorporatedCollections (fork : list Block) : list Identifier :=
  fork ≫= λ block, CollectionID <$> Guarantees (Payload_ block).

(** Modelled from the spec: step 1 (b), the receipts already incorporated on the
    walked blocks. *)
Definition incorporatedReceipts (fork : list Block) : list ExecutionReceiptMeta :=
  fork ≫= λ block, Receipts (Payload_ block).

(** Modelled from the spec: step 4, the results already incorporated on the
    walked blocks. *)
Definition incorporatedResults (fork : list Block) : list Identifier :=
  fork ≫= λ block, ID <$> Results (Payload_ block).

(** Modelled from the spec: step 2, the guarantees of the pool, in its order,
    whose reference block is known and not older than the limit of the walk
    and whose collection is not yet on the fork. *)
Definition selectGuarantees (db : gmap Identifier Block) (limit : N) (fork : list Block)
    (pool : list CollectionGuarantee) : list CollectionGuarantee :=
  filter (λ g, match db !! ReferenceBlockID g with
               | Some ref => bool_decide (limit ≤ Height (Header_ ref))%N
               | None => false
               end
               && bool_decide (CollectionID g ∉ incorporatedCollections fork)) pool.

(** Modelled from the spec: step 3. The candidates are the seals of the pool
    whose result is incorporated on the unsealed part of the fork. Starting
    from the result of the last seal, the next seal is a candidate whose
    incorporated result has that result as its previous result; the walk
    stops at the first gap and after [count] seals. *)
Definition sealCandidates (unsealed : list Block) (pool : list IncorporatedResultSeal)
    : list IncorporatedResultSeal :=
  filter (λ irs, IncorporatedBlockID (TheIncorporatedResult irs)
                 ∈ (λ block, ID (Header_ block)) <$> unsealed) pool.

(** Modelled from the spec: step 3, the match of [previousResultID] with the
    result sealed last. *)
Definition follows (last : Identifier) (irs : IncorporatedResultSeal) : bool :=
  bool_decide (PreviousResultID (IncResult (TheIncorporatedResult irs)) = last).

(** Modelled from the spec: step 3, the walk forward along the candidates. *)
Fixpoint selectSeals (candidates : list IncorporatedResultSeal) (last : Identifier)
    (count : nat) : list IncorporatedResultSeal :=
  match count with
  | 0 => []
  | S count =>
      match List.find (follows last) candidates with
      | None => []
      | Some irs => irs :: selectSeals candidates (SealResultID (TheSeal irs)) count
      end
  end.

(** Modelled from the spec: the two filters of step 4. *)
Definition blockFilter (unsealed : list Block) (header : Header) : bool :=
  bool_decide (ID header ∈ (λ block, ID (Header_ block)) <$> unsealed).

(** Modelled from the spec: step 4, the receipt filter: not yet incorporated on
    the fork, not for the sealed block, and valid. *)
Definition receiptFilter (b : Builder) (fork : list Block) (sealedBlockID : Identifier)
    (receipt : ExecutionReceipt) : bool :=
  bool_decide (Meta receipt ∉ incorporatedReceipts fork)
  && bool_decide (BlockID (Result receipt) ≠ sealedBlockID)
  && receiptValidator b receipt.

(** Modelled from the spec: [ExecutionTree.ReachableReceipts] is not among
    the sources. It yields, parents first, the receipts whose result descends
    from [fromResultID] through results of blocks that pass [blockFilter],
    and that pass [receiptFilter]. *)
Definition reach (blockFilter : Header → bool) (receiptFilter : ExecutionReceipt → bool)
    (acc : gset Identifier * list ExecutionReceipt) (entry : ExecutionReceipt * Header)
    : gset Identifier * list ExecutionReceipt :=
  let '(receipt, header) := entry in
  if blockFilter header
     && (bool_decide (ID (Result receipt) ∈ acc.1)
         || bool_decide (PreviousResultID (Result receipt) ∈ acc.1))
  then ({[ID (Result receipt)]} ∪ acc.1,
        if receiptFilter receipt then acc.2 ++ [receipt] else acc.2)
  else acc.

(** Modelled from the spec: [ExecutionTree.ReachableReceipts], started from the
    result [fromResultID]. *)
Definition ReachableReceipts (tree : list (ExecutionReceipt * Header))
    (fromResultID : Identifier) (blockFilter : Header → bool)
    (receiptFilter : ExecutionReceipt → bool) : list ExecutionReceipt :=
  (foldl (reach blockFilter receiptFilter) ({[fromResultID]}, []) tree).2.

(** Modelled from the spec: the rest of step 4. At most [maxReceiptCount]
    receipts are taken; the payload gets the meta of each, and the result of
    those whose result is not yet incorporated on the fork. *)
Definition selectReceipts (b : Builder) (fork unsealed : list Block) (lastSeal : Seal)
    : list ExecutionReceipt :=
  take (maxReceiptCount (cfg b))
       (ReachableReceipts (recPool b) (SealResultID lastSeal) (blockFilter unsealed)
          (receiptFilter b fork (SealBlockID lastSeal))).

(** Modelled from the spec: step 4, the results that go into the payload: those
    of the selected receipts that are not yet incorporated on the fork. *)
Definition insertableResults (fork : list Block) (receipts : list ExecutionReceipt)
    : list ExecutionResult :=
  Result <$> filter (λ receipt, ID (Result receipt) ∉ incorporatedResults fork) receipts.

(** Modelled from the spec: what [BuildOn] reads before it selects: the last
    seal of the fork, the limit of the walk, the walked blocks, and those of
    them above the sealed block. *)
Record Fork := {
  lastSeal : Seal;
  limit : N;
  fork : list Block;
  unsealed : list Block;
}.

(** Modelled from the spec: the reads of [BuildOn]: the parent, the last seal of
    its fork, the sealed block, and the walk back of step 1. A failed read
    aborts the build. *)
Definition readFork (b : Builder) (parentID : Identifier) : result Fork :=
  match ByID (blocks b) parentID with
  | Err e => Err e
  | Ok parent =>
      match seals b parentID with
      | Err e => Err e
      | Ok lastSeal =>
          match ByID (blocks b) (SealBlockID lastSeal) with
          | Err e => Err e
          | Ok sealed =>
              let limit := (Height (Header_ sealed) - expiry (cfg b))%N in
              match walkBack (blocks b) parentID
                      (N.to_nat (Height (Header_ parent) - limit)) with
              | Err e => Err e
              | Ok fork =>
                  Ok {| lastSeal := lastSeal;
                        limit := limit;
                        fork := fork;
                        unsealed :=
                          filter (λ block, (Height (Header_ sealed)
                                            < Height (Header_ block))%N) fork |}
              end
          end
      end
  end.

(** Modelled from the spec: step 3, the seals chosen for the payload, each with
    its incorporated result. *)
Definition insertableSeals (b : Builder) (f : Fork) : list IncorporatedResultSeal :=
  selectSeals (sealCandidates (unsealed f) (sealPool b)) (SealResultID (lastSeal f))
    (maxSealCount (cfg b)).

(** Modelled from the spec: [Builder.BuildOn], not among the sources: the
    payload of the block built on [parentID]. *)
Definition BuildOn (b : Builder) (parentID : Identifier) : result Payload :=
  match readFork b parentID with
  | Err e => Err e
  | Ok f =>
      let receipts := selectReceipts b (fork f) (unsealed f) (lastSeal f) in
      Ok {| Guarantees := selectGuarantees (blocks b) (limit f) (fork f) (guarPool b);
            Seals := TheSeal <$> insertableSeals b f;
            Receipts := Meta <$> receipts;
            Results := insertableResults (fork f) receipts |}
  end.

(** A list of seals, each with its incorporated result, is a chain from the
    result [last] when the previous result of each is the result sealed just
    before it. *)
Fixpoint sealChain (last : Identifier) (l : list IncorporatedResultSeal) : Prop :=
  match l with
  | [] => True
  | irs :: l =>
      PreviousResultID (IncResult (TheIncorporatedResult irs)) = last
      ∧ sealChain (SealResultID (TheSeal irs)) l
  end.

(** The result sealed last after the seals [l] on top of [last]. *)
Definition lastSealed (last : Identifier) (l : list IncorporatedResultSeal) : Identifier :=
  foldl (λ _ irs, SealResultID (TheSeal irs)) last l.

End Build.
End Builder.

(** ** Package mtrie: the forest of in-memory tries *)

Module Forest.

(** [ledger.Path] and [ledger.RootHash]: 32-byte values. *)
Abbreviation Path := N (only parsing).
Abbreviation RootHash := N (only parsing).

(** [ledger.Payload], reduced to its value. *)
Record Payload := {
  Value : list Byte.byte;
}.

(** [ledger.TrieRead] and [ledger.TrieUpdate]. *)
Record TrieRead := {
  ReadRootHash : RootHash;
  ReadPaths : list Path;
}.

Record TrieUpdate := {
  UpdateRootHash : RootHash;
  UpdatePaths : list Path;
  UpdatePayloads : list Payload;
}.

(** Sequencing of calls that may panic. *)
Definition andThen {A B : Type} (o : outcome A) (k : A → outcome B) : outcome B :=
  match o with
  | Returns a => k a
  | Panics => Panics
  | Fatal => Fatal
  end.

(** [l[j] = x] on a slice: out of range it panics. *)
Definition store {A : Type} (j : nat) (x : A) (l : list A) : outcome (list A) :=
  if decide (j < length l) then Returns (<[j := x]> l) else Panics.

(** [l[j]] on a slice: out of range it panics. *)
Definition load {A : Type} (j : nat) (l : list A) : outcome A :=
  match l !! j with
  | Some x => Returns x
  | None => Panics
  end.

(** The package [trie], which the sources do not hold: the tries, their root
    hash and equality, the empty trie, the batch read (which permutes the
    paths it is given and returns them with the payloads, aligned), and the
    construction of an updated trie. [DummyHash] is [hash.DummyHash]. *)
Class Tries := {
  MTrie : Type;
  RootHashOf : MTrie → RootHash;
  Equals : MTrie → MTrie → bool;
  NewEmptyMTrie : MTrie;
  EmptyTrieRootHash : RootHash;
  UnsafeRead : MTrie → list Path → list Path * list Payload;
  NewTrieWithUpdatedRegisters : MTrie → list Path → list Payload → result MTrie;
  DummyHash : RootHash;
}.

Section Forest.
Context `{Tries}.

(** [lru.Cache] of golang-lru with root hashes as keys and tries as values:
    a bounded list of entries, the least recently used first. *)
Record Cache := {
  size : nat;
  entries : list (RootHash * MTrie);
}.

Definition position (key : RootHash) (c : Cache) : option (nat * (RootHash * MTrie)) :=
  list_find (λ e, e.1 = key) (entries c).

(** [lru.New]: the size must be positive. *)
Definition lru_New (size : Z) : result Cache :=
  if decide (size ≤ 0)%Z then Err "Must provide a positive size"
  else Ok {| size := Z.to_nat size; entries := [] |}.

(** [Cache.Get]: a hit makes the entry the most recently used. *)
Definition lru_Get (key : RootHash) (c : Cache) : option MTrie * Cache :=
  match position key c with
  | Some (i, e) => (Some e.2, {| size := size c; entries := delete i (entries c) ++ [e] |})
  | None => (None, c)
  end.

(** [Cache.Add]: a known key gets the new value and becomes the most recently
    used; a new key is added, and the least recently used entry is evicted
    if the cache is over its size. The evicted entry is returned, for the
    eviction callback. *)
Definition lru_Add (key : RootHash) (value : MTrie) (c : Cache)
    : option (RootHash * MTrie) * Cache :=
  match position key c with
  | Some (i, e) =>
      (None, {| size := size c; entries := delete i (entries c) ++ [(key, value)] |})
  | None =>
      let es := entries c ++ [(key, value)] in
      if decide (size c < length es)
      then (head es, {| size := size c; entries := tail es |})
      else (None, {| size := size c; entries := es |})
  end.

(** [Cache.Remove]: the removed entry is returned, for the eviction
    callback. *)
Definition lru_Remove (key : RootHash) (c : Cache) : option (RootHash * MTrie) * Cache :=
  match position key c with
  | Some (i, e) => (Some e, {| size := size c; entries := delete i (entries c) |})
  | None => (None, c)
  end.

Definition lru_Len (c : Cache) : nat := length (entries c).

(** [Cache.Keys]: from the oldest to the newest. *)
Definition lru_Keys (c : Cache) : list RootHash := (entries c).*1.

(** [Forest]. [evicted] is the history of the calls of [onTreeEvicted], which
    the code does not keep. *)
Record Forest := {
  tries : Cache;
  forestCapacity : Z;
  onTreeEvicted : option (MTrie → option string);
  evicted : list MTrie;
}.

(** The callback given to [lru.NewWithEvict]: it hands the trie to
    [onTreeEvicted] and drops the error. Without [onTreeEvicted] the cache is
    made by [lru.New] and has no callback. *)
Definition evict (f : Forest) (gone : option (RootHash * MTrie)) : list MTrie :=
  match onTreeEvicted f, gone with
  | Some _, Some e => evicted f ++ [e.2]
  | _, _ => evicted f
  end.

Definition GetTrie (f : Forest) (rootHash : RootHash) : result MTrie * Forest :=
  match lru_Get rootHash (tries f) with
  | (Some trie, cache) =>
      (Ok trie, {| tries := cache; forestCapacity := forestCapacity f;
                   onTreeEvicted := onTreeEvicted f; evicted := evicted f |})
  | (None, _) => (Err "trie with the given rootHash not found", f)
  end.

(** [AddTrie]; [newTrie] is a pointer, [None] when nil. *)
Definition AddTrie (f : Forest) (newTrie : option MTrie) : option string * Forest :=
  match newTrie with
  | None => (None, f)
  | Some newTrie =>
      let rootHash := RootHashOf newTrie in
      match lru_Get rootHash (tries f) with
      | (Some trie, cache) =>
          let f := {| tries := cache; forestCapacity := forestCapacity f;
                      onTreeEvicted := onTreeEvicted f; evicted := evicted f |} in
          if Equals trie newTrie then (None, f)
          else (Some "forest already contains a tree with same root hash but other properties",
                f)
      | (None, _) =>
          let '(gone, cache) := lru_Add rootHash newTrie (tries f) in
          (None, {| tries := cache; forestCapacity := forestCapacity f;
                    onTreeEvicted := onTreeEvicted f; evicted := evict f gone |})
      end
  end.

Fixpoint AddTries (f : Forest) (newTries : list (option MTrie)) : option string * Forest :=
  match newTries with
  | [] => (None, f)
  | t :: newTries =>
      match AddTrie f t with
      | (Some err, f) => (Some ("adding tries to forest failed: " +:+ err), f)
      | (None, f) => AddTries f newTries
      end
  end.

Definition RemoveTrie (f : Forest) (rootHash : RootHash) : Forest :=
  let '(gone, cache) := lru_Remove rootHash (tries f) in
  {| tries := cache; forestCapacity := forestCapacity f;
     onTreeEvicted := onTreeEvicted f; evicted := evict f gone |}.

Definition GetEmptyRootHash (f : Forest) : RootHash := EmptyTrieRootHash.

Definition Size (f : Forest) : nat := lru_Len (tries f).

Definition NewForest (forestCapacity : Z) (onTreeEvicted : option (MTrie → option string))
    : result Forest :=
  match lru_New forestCapacity with
  | Err err => Err ("cannot create forest cache: " +:+ err)
  | Ok cache =>
      let forest := {| tries := cache; forestCapacity := forestCapacity;
                       onTreeEvicted := onTreeEvicted; evicted := [] |} in
      let emptyTrie := NewEmptyMTrie in
      match AddTrie forest (Some emptyTrie) with
      | (Some err, _) => Err ("adding empty trie to forest failed: " +:+ err)
      | (None, forest) => Ok forest
      end
  end.

(** The first loop of [Read]: the paths without repetition, in the order of
    their first occurrence, and for each path the positions it was asked
    at. *)
Definition collect (acc : list Path * gmap Path (list nat)) (entry : nat * Path)
    : list Path * gmap Path (list nat) :=
  let '(deduplicatedPaths, pathOrgIndex) := acc in
  let '(i, path) := entry in
  match pathOrgIndex !! path with
  | Some indices => (deduplicatedPaths, <[path := indices ++ [i]]> pathOrgIndex)
  | None => (deduplicatedPaths ++ [path], <[path := [i]]> pathOrgIndex)
  end.

Definition indexPaths (paths : list Path) : list Path * gmap Path (list nat) :=
  foldl collect ([], ∅) (imap pair paths).

(** The second loop of [Read]: the payload of each path goes to every
    position the path was asked at. *)
Definition spread (payload : Payload) (indices : list nat)
    (orderedPayloads : list (option Payload)) : outcome (list (option Payload)) :=
  foldl (λ acc j, andThen acc (store j (Some payload))) (Returns orderedPayloads) indices.

Fixpoint reorder (i : nat) (deduplicatedPaths : list Path) (payloads : list Payload)
    (pathOrgIndex : gmap Path (list nat)) (orderedPayloads : list (option Payload))
    : outcome (list (option Payload)) :=
  match deduplicatedPaths with
  | [] => Returns orderedPayloads
  | p :: deduplicatedPaths =>
      andThen (load i payloads) (λ payload,
        let indices := default [] (pathOrgIndex !! p) in
        andThen (spread payload indices orderedPayloads)
          (reorder (S i) deduplicatedPaths payloads pathOrgIndex))
  end.

(** [Read]: the payloads are pointers, [None] when nil. *)
Definition Read (f : Forest) (r : TrieRead)
    : outcome (result (list (option Payload)) * Forest) :=
  if decide (length (ReadPaths r) = 0) then Returns (Ok [], f)
  else
    match GetTrie f (ReadRootHash r) with
    | (Err err, f) => Returns (Err err, f)
    | (Ok trie, f) =>
        let '(deduplicatedPaths, pathOrgIndex) := indexPaths (ReadPaths r) in
        let '(deduplicatedPaths, payloads) := UnsafeRead trie deduplicatedPaths in
        let orderedPayloads := replicate (length (ReadPaths r)) None in
        andThen (reorder 0 deduplicatedPaths payloads pathOrgIndex orderedPayloads)
          (λ orderedPayloads, Returns (Ok orderedPayloads, f))
    end.

(** The loop of [Update]: one entry per path, at the position of its first
    write, with the payload of its last write. *)
Definition retain (acc : outcome (list Path * list Payload * gmap Path nat))
    (entry : nat * Path) (payloads : list Payload)
    : outcome (list Path * list Payload * gmap Path nat) :=
  andThen acc (λ '(deduplicatedPaths, deduplicatedPayloads, payloadMap),
    let '(i, path) := entry in
    andThen (load i payloads) (λ payload,
      match payloadMap !! path with
      | Some idx =>
          andThen (load idx deduplicatedPayloads) (λ oldPayload,
            andThen (store idx payload deduplicatedPayloads) (λ deduplicatedPayloads,
              Returns (deduplicatedPaths, deduplicatedPayloads, payloadMap)))
      | None =>
          Returns (deduplicatedPaths ++ [path], deduplicatedPayloads ++ [payload],
                   <[path := length deduplicatedPaths]> payloadMap)
      end)).

Definition deduplicate (paths : list Path) (payloads : list Payload)
    : outcome (list Path * list Payload) :=
  andThen (foldl (λ acc entry, retain acc entry payloads) (Returns ([], [], ∅))
             (imap pair paths))
    (λ '(deduplicatedPaths, deduplicatedPayloads, _),
       Returns (deduplicatedPaths, deduplicatedPayloads)).

(** [Update]: the root hash and the error it returns, and the forest
    afterwards. *)
Definition Update (f : Forest) (u : TrieUpdate)
    : outcome (RootHash * option string * Forest) :=
  let emptyHash := DummyHash in
  match GetTrie f (UpdateRootHash u) with
  | (Err err, f) => Returns (emptyHash, Some err, f)
  | (Ok parentTrie, f) =>
      if decide (length (UpdatePaths u) = 0) then Returns (UpdateRootHash u, None, f)
      else
        andThen (deduplicate (UpdatePaths u) (UpdatePayloads u))
          (λ '(deduplicatedPaths, deduplicatedPayloads),
             match NewTrieWithUpdatedRegisters parentTrie deduplicatedPaths
                     deduplicatedPayloads with
             | Err err =>
                 Returns (emptyHash, Some ("constructing updated trie failed: " +:+ err), f)
             | Ok newTrie =>
                 match AddTrie f (Some newTrie) with
                 | (Some err, f) =>
                     Returns (emptyHash,
                              Some ("adding updated trie to forest failed: " +:+ err), f)
                 | (None, f) => Returns (RootHashOf newTrie, None, f)
                 end
             end)
  end.

(** The tries of a forest are filed under their root hash, once each, the
    cache has the size the forest was made with, and there are no more tries
    than it may hold. *)
Definition sound (f : Forest) : Prop :=
  Forall (λ e, e.1 = RootHashOf e.2) (entries (tries f))
  ∧ NoDup (entries (tries f)).*1
  ∧ Z.of_nat (size (tries f)) = forestCapacity f
  ∧ 0 < size (tries f)
  ∧ length (entries (tries f)) ≤ size (tries f).

(** The payload of the last write to a path, among the writes of an update. *)
Definition lastWrite (paths : list Path) (payloads : list Payload) (path : Path)
    (payload : Payload) : Prop :=
  ∃ i, paths !! i = Some path ∧ payloads !! i = Some payload
       ∧ ∀ j, i < j → paths !! j ≠ Some path.

(** The tries a forest holds, by root hash. *)
Definition holds (f : Forest) (rootHash : RootHash) (trie : MTrie) : Prop :=
  (rootHash, trie) ∈ entries (tries f).

(** The forests a program can get: made by [NewForest], then used through the
    methods of the forest. *)
Inductive reached (capacity : Z) (callback : option (MTrie → option string))
    : Forest → Prop :=
  | reached_NewForest f :
      NewForest capacity callback = Ok f → reached capacity callback f
  | reached_GetTrie f rootHash r f' :
      reached capacity callback f → GetTrie f rootHash = (r, f') →
      reached capacity callback f'
  | reached_AddTrie f newTrie err f' :
      reached capacity callback f → AddTrie f newTrie = (err, f') →
      reached capacity callback f'
  | reached_AddTries f newTries err f' :
      reached capacity callback f → AddTries f newTries = (err, f') →
      reached capacity callback f'
  | reached_RemoveTrie f rootHash :
      reached capacity callback f → reached capacity callback (RemoveTrie f rootHash)
  | reached_Read f r res f' :
      reached capacity callback f → Read f r = Returns (res, f') →
      reached capacity callback f'
  | reached_Update f u rootHash err f' :
      reached capacity callback f → Update f u = Returns (rootHash, err, f') →
      reached capacity callback f'.

End Forest.
End Forest.

(** ** A small network, to run the definitions on *)

Module Sample.
Import Flow.

(** Stand-ins for the hashes: a result is named after its block, a header
    after its height. *)
Definition resultID : Entity ExecutionResult := λ r, (1000 + BlockID r)%N.
Definition headerID : Entity Header := λ h, (100 + Height h)%N.

(** *** Seal pool: a seal for the result of block 111 *)

Definition result111 : ExecutionResult :=
  {| PreviousResultID := 1110; BlockID := 111; Chunks := [] |}.

Definition seal111 : IncorporatedResultSeal :=
  {| TheSeal := {| SealBlockID := 111; SealResultID := 1111; FinalState := 41 |};
     TheIncorporatedResult := {| IncorporatedBlockID := 111; IncResult := result111 |} |}.

(** Receipts for block 111: two execution nodes, or one node twice. *)
Definition storeOfTwo : SealPool.ReceiptsStore := λ blockID,
  if decide (blockID = 111%N)
  then Ok [ {| ExecutorID := 1; Result := result111 |};
            {| ExecutorID := 2; Result := result111 |} ]
  else Err "not found".

Definition storeOfOne : SealPool.ReceiptsStore := λ blockID,
  if decide (blockID = 111%N)
  then Ok [ {| ExecutorID := 1; Result := result111 |};
            {| ExecutorID := 1; Result := result111 |} ]
  else Err "not found".

(** *** Verifier: a ledger, a virtual machine and three chunks *)

Import Verifier.

Definition key (r : RegisterID) : LedgerKey :=
  [ {| KeyPartType := 0; KeyPartValue := String.list_byte_of_string (Owner r) |};
    {| KeyPartType := 1; KeyPartValue := String.list_byte_of_string (Controller r) |};
    {| KeyPartType := 2; KeyPartValue := String.list_byte_of_string (Key r) |} ].

(** The proof covers the registers of every owner but the empty one. *)
Definition outside (k : LedgerKey) : bool :=
  match k with
  | owner :: _ => match KeyPartValue owner with [] => true | _ => false end
  | [] => true
  end.

(** The toy trie answers a read with the last part of the key, and an update
    with the old root plus the number of registers written. *)
Definition ledger : PartialLedger :=
  {| psmt_Get := λ query,
       match QueryKeys query with
       | [k] => if outside k then LErr (ErrMissingKeys [k])
                else LOk (default [] (KeyPartValue <$> last k))
       | _ => LErr (ErrLedger "one key per query")
       end;
     psmt_Set := λ update,
       match filter (λ k, outside k) (UpdateKeys update) with
       | [] => LOk (UpdateState update + N.of_nat (length (UpdateKeys update)))%N
       | missing => LErr (ErrMissingKeys missing)
       end |}.

Definition externals : Externals :=
  {| RegisterIDToKey := key;
     Key_String := λ k,
       String.concat "/" ((λ part, String.string_of_list_byte (KeyPartValue part)) <$> k);
     RegisterID_String := λ r, pretty (Npos (encode r));
     NewLedger := λ proof state version,
       match proof with [] => Err "empty proof" | _ => Ok ledger end;
     DefaultPathFinderVersion := 1;
     Programs := nat;
     NewEmptyPrograms := 0;
     SystemChunkTransaction := λ serviceAddress, {| Script := "system"; Arguments_ := [] |};
     SpockHash := λ writes, repeat Byte.x01 (length writes) |}.

(** The toy machine: a script reads or writes the register its arguments
    name, or fails with an internal error. *)
Definition register (tx : TransactionProcedure) : RegisterID :=
  match Arguments_ (Transaction tx) with
  | owner :: name :: _ => {| Owner := owner; Controller := ""; Key := name |}
  | _ => {| Owner := ""; Controller := ""; Key := "" |}
  end.

Definition machine : @VirtualMachine externals := λ ctx tx programs,
  if decide (Script (Transaction tx) = "read")
  then @PGet externals (register tx) (λ _, @Return externals None (S programs))
  else if decide (Script (Transaction tx) = "write")
  then @PSet externals (register tx) [Byte.x2a] (@Return externals None (S programs))
  else if decide (Script (Transaction tx) = "crash")
  then @Return externals (Some "out of memory") programs
  else @Return externals None programs.

Definition context : Context :=
  {| ServiceAddress := 1; BlockHeader := None;
     RestrictedAccountCreationEnabled := true; RestrictedDeploymentEnabled := true;
     ServiceEventCollectionEnabled := false; TransactionProcessors := [] |}.

Definition verifier : @ChunkVerifier externals := @NewChunkVerifier externals machine context.

Definition pack : ChunkDataPack :=
  {| ChunkID := 7; PackStartState := 40; PackProof := [Byte.x01]; CollectionID := 9 |}.

Definition chunk : Chunk := {| Index := 0; StartState := 40; EndState := 41 |}.

Definition script (name owner register : string) : TransactionBody :=
  {| Script := name; Arguments_ := [owner; register] |}.

Definition procedures (bodies : list TransactionBody) : list TransactionProcedure :=
  imap (λ i txBody, {| Transaction := txBody; TxIndex := uint32 i |}) bodies.

(** An ordinary chunk whose one transaction writes a covered register, and
    the same data as a system chunk. *)
Definition ordinaryChunk : VerifiableChunkData :=
  {| IsSystemChunk := false; Chunk_ := chunk;
     Header_ := {| HeaderParentID := 110; Height := 11 |};
     Result_ := result111;
     Collection_ := {| Transactions := [script "write" "alice" "balance"] |};
     ChunkDataPack_ := Some pack; VCEndState := 41 |}.

Definition systemChunk : VerifiableChunkData :=
  {| IsSystemChunk := true; Chunk_ := chunk;
     Header_ := {| HeaderParentID := 110; Height := 11 |};
     Result_ := result111;
     Collection_ := {| Transactions := [] |};
     ChunkDataPack_ := Some pack; VCEndState := 40 |}.

(** *** Requester: an engine and a mempool with two requests *)

Import Requester.

Definition engine : Engine :=
  {| retryInterval := 1000;
     requestTargets := 2;
     reqQualifierFunc := λ attempts lastAttempt retryAfter, true;
     reqUpdaterFunc := λ attempts lastAttempt retryAfter,
       ((attempts + 1)%N, (lastAttempt + 1000)%Z, (2 * retryAfter)%Z);
     con_Publish := λ req targetIDs,
       if N.even (Nonce req) then None else Some "no route";
     SampleTargets := λ request n, take n (Agrees request ++ Disagrees request);
     rand_Uint64 := λ draw, N.of_nat draw |}.

Definition request7 : ChunkDataPackRequest :=
  {| ChunkID := 7; Height := 5; Agrees := [1; 2; 3]%N; Disagrees := [4]%N |}.

Definition request8 : ChunkDataPackRequest :=
  {| ChunkID := 8; Height := 50; Agrees := [1]%N; Disagrees := [4; 5]%N |}.

Definition fresh (request : ChunkDataPackRequest) : ChunkRequestStatus :=
  {| RequestInfo := request; Attempts := 0; LastAttempt := 0; RetryAfter := 500 |}.

Definition idle : State := {| pendingRequests := ∅; calls := []; draws := 0 |}.

Definition waiting : State :=
  {| pendingRequests := {[ 7%N := fresh request7; 8%N := fresh request8 ]};
     calls := []; draws := 0 |}.

(** The same mempool after one draw: the next nonce is odd and the conduit
    refuses it. *)
Definition unlucky : State :=
  {| pendingRequests := {[ 7%N := fresh request7; 8%N := fresh request8 ]};
     calls := []; draws := 1 |}.

Definition sealed10 : Header := {| HeaderParentID := 109; Flow.Height := 10 |}.

Definition response7 : ChunkDataResponse :=
  {| ChunkDataPack := pack; Collection := {| Transactions := [] |}; RespNonce := 3 |}.

(** *** Builder: the fork 110 <- 111 <- 112 with block 110 sealed *)

Import Builder.

Definition resultFor (blockID : N) : ExecutionResult :=
  {| PreviousResultID := 1000 + (blockID - 1); BlockID := blockID; Chunks := [] |}.

Definition receipt (executor blockID : N) : ExecutionReceipt :=
  {| ExecutorID := executor; Result := resultFor blockID |}.

Definition sealFor (blockID : N) : IncorporatedResultSeal :=
  {| TheSeal := {| SealBlockID := blockID; SealResultID := 1000 + blockID;
                   FinalState := blockID |};
     TheIncorporatedResult :=
       {| IncorporatedBlockID := blockID; IncResult := resultFor blockID |} |}.

Definition header (height : N) : Header :=
  {| HeaderParentID := 100 + (height - 1); Flow.Height := height |}.

Definition emptyPayload : Payload :=
  {| Guarantees := []; Seals := []; Receipts := []; Results := [] |}.

(** Block 112 incorporates the receipt of node 1 for block 111. *)
Definition storage : gmap N Block :=
  {[ 110%N := {| Header_ := header 10; Payload_ := emptyPayload |};
     111%N := {| Header_ := header 11; Payload_ := emptyPayload |};
     112%N := {| Header_ := header 12;
                 Payload_ := {| Guarantees := []; Seals := [];
                                Receipts := [@Meta resultID (receipt 1 111)];
                                Results := [resultFor 111] |} |} ]}.

(** The pools: seals for 111 and 112; receipts for 111 by nodes 1 and 2 and
    for 112 by node 1. *)
Definition builder (maxSeals : nat) (pool : list IncorporatedResultSeal) : Builder :=
  {| cfg := {| expiry := 0; maxSealCount := maxSeals; maxReceiptCount := 10 |};
     blocks := storage;
     seals := λ blockID, Ok {| SealBlockID := 110; SealResultID := 1110; FinalState := 110 |};
     guarPool := [];
     sealPool := pool;
     recPool := [(receipt 1 111, header 11); (receipt 2 111, header 11);
                 (receipt 1 112, header 12)];
     receiptValidator := λ _, true |}.

(** What [BuildOn] gives on block 112 with room for one seal. *)
Definition built : Payload :=
  {| Guarantees := [];
     Seals := [TheSeal (sealFor 111)];
     Receipts := [@Meta resultID (receipt 2 111); @Meta resultID (receipt 1 112)];
     Results := [resultFor 112] |}.

(** The requester after a tick on [waiting] with block 10 sealed. *)
Definition ticked : State :=
  {| pendingRequests :=
       {[ 8%N := {| RequestInfo := request8; Attempts := 1; LastAttempt := 1000;
                    RetryAfter := 1000 |} ]};
     calls := [Publish {| ReqChunkID := 8; Nonce := 0 |} [1; 4]%N;
               NotifyChunkDataPackSealed 7];
     draws := 1 |}.

End Sample.

(** * Theorems *)

(** ** The seal mempool wrapper *)

(** A finite set has two elements or more exactly when it has two different
    elements. *)
Lemma two_elements (X : gset N) :
  2 ≤ size X ↔ ∃ x y, x ∈ X ∧ y ∈ X ∧ x ≠ y.
Proof.
  split.
  - unfold size, set_size. simpl. intros Hsize.
    pose proof (NoDup_elements X) as Hnd.
    destruct (elements X) as [|x [|y l]] eqn:Hel; simpl in Hsize; try lia.
    exists x, y. rewrite <- !elem_of_elements, Hel.
    split_and!; [apply list_elem_of_here | apply list_elem_of_further, list_elem_of_here |].
    apply NoDup_cons in Hnd as [Hnot _]. intros ->. apply Hnot, list_elem_of_here.
  - intros (x & y & Hx & Hy & Hne).
    assert (({[x]} ∪ {[y]} : gset N) ⊆ X) as Hsub.
    { apply union_subseteq. split; by apply singleton_subseteq_l. }
    apply subseteq_size in Hsub.
    rewrite size_union in Hsub by (by apply disjoint_singleton_l, not_elem_of_singleton).
    rewrite !size_singleton in Hsub. lia.
Qed.

Section SealPoolFacts.
Import Flow SealPool.
Context `{Entity ExecutionResult}.

Implicit Types (l receipts : list ExecutionReceipt) (ir : IncorporatedResultSeals).

(** Grouping, one group at a time. *)
Lemma GroupBy_foldl grouper l (acc : gmap N (list ExecutionReceipt)) k :
  foldl (λ groups rcpt,
           <[grouper rcpt := default [] (groups !! grouper rcpt) ++ [rcpt]]> groups)
        acc l !! k
  = match acc !! k, filter (λ rcpt, grouper rcpt = k) l with
    | Some g, fl => Some (g ++ fl)
    | None, [] => None
    | None, fl => Some fl
    end.
Proof.
  revert acc. induction l as [|rcpt l IH]; intros acc; simpl.
  - destruct (acc !! k); by rewrite ?app_nil_r.
  - rewrite IH. rewrite filter_cons. destruct (decide (grouper rcpt = k)) as [->|Hne].
    + rewrite lookup_insert_eq. destruct (acc !! k); simpl; by rewrite <- ?app_assoc.
    + rewrite lookup_insert_ne by done. done.
Qed.

Lemma GetGroup_GroupBy grouper l k :
  GetGroup (GroupBy grouper l) k = filter (λ rcpt, grouper rcpt = k) l.
Proof.
  unfold GetGroup, GroupBy. rewrite GroupBy_foldl, lookup_empty.
  by destruct (filter _ l).
Qed.

Lemma GroupBy_dom grouper l :
  dom (GroupBy grouper l) = list_to_set (grouper <$> l).
Proof.
  apply set_eq. intros k. rewrite elem_of_dom, elem_of_list_to_set, list_elem_of_fmap.
  unfold GroupBy. rewrite GroupBy_foldl, lookup_empty. split.
  - intros Hsome. destruct (filter _ l) as [|rcpt fl] eqn:Hfl.
    + by destruct Hsome.
    + assert (rcpt ∈ filter (λ rcpt, grouper rcpt = k) l) as Hin
        by (rewrite Hfl; apply list_elem_of_here).
      apply list_elem_of_filter in Hin as [? ?]. eauto.
  - intros (rcpt & -> & Hin).
    assert (rcpt ∈ filter (λ r, grouper r = grouper rcpt) l) as Hf
      by (by apply list_elem_of_filter).
    destruct (filter _ l); [by apply elem_of_nil in Hf | eauto].
Qed.

Lemma GetGroup_GroupByResultID receipts resultID :
  GetGroup (GroupByResultID receipts) resultID = committing receipts resultID.
Proof. apply GetGroup_GroupBy. Qed.

Lemma NumberGroups_GroupByExecutorID l :
  NumberGroups (GroupByExecutorID l) = size (executors l).
Proof.
  unfold NumberGroups, GroupByExecutorID, executors.
  rewrite <- GroupBy_dom. by rewrite size_dom.
Qed.

Lemma two_groups receipts resultID :
  2 ≤ NumberGroups (GroupByExecutorID (GetGroup (GroupByResultID receipts) resultID))
  ↔ twoExecutors receipts resultID.
Proof.
  rewrite GetGroup_GroupByResultID, NumberGroups_GroupByExecutorID, two_elements.
  unfold executors, committing, twoExecutors. split.
  - intros (x & y & Hx & Hy & Hne).
    apply elem_of_list_to_set, list_elem_of_fmap in Hx as (r1 & -> & Hr1).
    apply elem_of_list_to_set, list_elem_of_fmap in Hy as (r2 & -> & Hr2).
    apply list_elem_of_filter in Hr1 as [? ?], Hr2 as [? ?].
    exists r1, r2. eauto 10.
  - intros (r1 & r2 & Hr1 & Hr2 & H1 & H2 & Hne).
    exists (ExecutorID r1), (ExecutorID r2).
    rewrite !elem_of_list_to_set, !list_elem_of_fmap.
    split_and!; [exists r1 | exists r2 | done];
      (split; [done | by apply list_elem_of_filter]).
Qed.

(** With a receipts store in place, [ByID] is the gate of the specification:
    it returns the seal of the wrapped pool when two execution nodes
    committed to its result, and [(nil, false)] when the seal is absent, when
    the store cannot be read, and when fewer than two execution nodes
    committed. *)
Lemma ByID_gate ir db id :
  receiptsDB ir = Some db →
  match seals ir !! id with
  | None => ByID ir id = Returns None
  | Some seal =>
      let incorporatedResult := TheIncorporatedResult seal in
      match db (BlockID (IncResult incorporatedResult)) with
      | Err _ => ByID ir id = Returns None
      | Ok receipts =>
          (twoExecutors receipts (ID (IncResult incorporatedResult))
           ∧ ByID ir id = Returns (Some seal))
          ∨ (¬ twoExecutors receipts (ID (IncResult incorporatedResult))
             ∧ ByID ir id = Returns None)
      end
  end.
Proof.
  intros Hdb. unfold ByID, resultHasMultipleReceipts. rewrite Hdb.
  destruct (seals ir !! id) as [seal|]; [|done]. simpl.
  destruct (db _) as [receipts|]; [|done].
  case_bool_decide as Htwo; rewrite two_groups in Htwo; [left | right]; done.
Qed.

(** The wrapper the constructor builds has no receipts store: looking up a
    seal that is in the wrapped pool calls [ByBlockID] on a nil interface. *)
Lemma ByID_without_store mempool id seal :
  mempool !! id = Some seal →
  ByID (NewIncorporatedResultSeals mempool) id = Panics.
Proof. intros Hin. unfold ByID. simpl. by rewrite Hin. Qed.

End SealPoolFacts.

Section SealPoolSample.
Import Flow SealPool.
#[local] Existing Instance Sample.resultID.

(** With a receipts store: two receipts from two execution nodes open the
    gate, two receipts from one node do not. *)
Example ByID_two_executors :
  ByID {| seals := {[ 5%N := Sample.seal111 ]}; receiptsDB := Some Sample.storeOfTwo |} 5
  = Returns (Some Sample.seal111).
Proof. reflexivity. Qed.

Example ByID_one_executor :
  ByID {| seals := {[ 5%N := Sample.seal111 ]}; receiptsDB := Some Sample.storeOfOne |} 5
  = Returns None.
Proof. reflexivity. Qed.

(** C1. The wrapper as [NewIncorporatedResultSeals] builds it has no
    receipts store. Asked for a seal that is in the wrapped pool, [ByID]
    reaches [resultHasMultipleReceipts], which calls [ByBlockID] on the nil
    store: the call panics, where the specification has [ByID] return the
    seal or [(nil, false)]. *)
Theorem ByID_constructed_wrapper_panics :
  ByID (NewIncorporatedResultSeals {[ 5%N := Sample.seal111 ]}) 5 = Panics.
Proof. reflexivity. Qed.

End SealPoolSample.

(** ** The chunk verifier *)

Section VerifierFacts.
Import Flow Verifier.
Context `{Externals} `{Entity ExecutionResult}.

Implicit Types (psmt : PartialLedger) (cdp : ChunkDataPack) (st : ExecState)
  (r : RegisterID) (p : Procedure) (v txView chunkView : View).

Lemma covered_not_uncovered psmt cdp r : covered psmt cdp r ↔ ¬ uncovered psmt cdp r.
Proof.
  unfold covered, uncovered. split.
  - intros Hc [keys Hk]. by apply (Hc keys).
  - intros Hn keys Hk. apply Hn. by exists keys.
Qed.

(** What [getRegister] does to the closure variables. *)
Lemma getRegister_spec psmt cdp r st res st' :
  getRegister psmt cdp r st = (res, st') →
  trieQueries st' = trieQueries st ++ [r]
  ∧ vmRuns st' = vmRuns st
  ∧ ((uncovered psmt cdp r
      ∧ unknownRegTouch st'
        = <[RegisterID_String r := RegisterIDToKey r]> (unknownRegTouch st)
      ∧ res = Ok [])
     ∨ (covered psmt cdp r ∧ unknownRegTouch st' = unknownRegTouch st)).
Proof.
  unfold getRegister, NewQuery, covered, uncovered. simpl.
  destruct (psmt_Get psmt _) as [value|[keys|msg]] eqn:Hget;
    intros [= <- <-]; simpl; split_and!; try done.
  - right. split; [intros keys; congruence | done].
  - left. eauto.
  - right. split; [intros keys; congruence | done].
Qed.

Lemma tracked_noExecution psmt cdp : tracked psmt cdp noExecution.
Proof.
  split; simpl.
  - intros r Hr. by apply elem_of_nil in Hr.
  - intros s k Hs. by rewrite lookup_empty in Hs.
Qed.

Lemma getRegister_tracked psmt cdp r st res st' :
  getRegister psmt cdp r st = (res, st') →
  tracked psmt cdp st → tracked psmt cdp st'.
Proof.
  intros Hget [Hrec Hsound].
  apply getRegister_spec in Hget as (Hq & _ & [(Hunc & Hu & _)|(Hcov & Hu)]);
    split; rewrite Hq, Hu.
  - intros r0 Hr0 Hunc0.
    destruct (decide (RegisterID_String r = RegisterID_String r0)) as [Heq|Hne].
    + exists r. rewrite <- Heq. by rewrite lookup_insert_eq.
    + rewrite lookup_insert_ne by done.
      apply elem_of_app in Hr0 as [Hr0|Hr0]; [by apply Hrec|].
      apply list_elem_of_singleton in Hr0. congruence.
  - intros s k Hs.
    destruct (decide (RegisterID_String r = s)) as [<-|Hne].
    + rewrite lookup_insert_eq in Hs. injection Hs as <-.
      exists r. split_and!; try done. apply elem_of_app. right. apply list_elem_of_here.
    + rewrite lookup_insert_ne in Hs by done.
      destruct (Hsound s k Hs) as (r0 & ? & ? & ? & ?).
      exists r0. split_and!; try done. apply elem_of_app. by left.
  - intros r0 Hr0 Hunc0.
    apply elem_of_app in Hr0 as [Hr0|Hr0]; [by apply Hrec|].
    apply list_elem_of_singleton in Hr0 as ->.
    by apply covered_not_uncovered in Hcov.
  - intros s k Hs.
    destruct (Hsound s k Hs) as (r0 & ? & ? & ? & ?).
    exists r0. split_and!; try done. apply elem_of_app. by left.
Qed.

(** A view passes to its read function at most once, and leaves the state of
    that function alone otherwise. *)
Lemma View_Get_state {St : Type} (P : St → Prop)
    (readFunc : RegisterID → St → result RegisterValue * St) r v s res v' s' :
  (∀ s0 res0 s1, readFunc r s0 = (res0, s1) → P s0 → P s1) →
  View_Get readFunc r v s = (res, v', s') → P s → P s'.
Proof.
  intros Hread. unfold View_Get.
  destruct (delta v !! r).
  - by intros [= <- <- <-].
  - destruct (readFunc r s) as [[value|msg] s1] eqn:Hr; intros [= <- <- <-];
      eauto.
Qed.

Lemma chunkView_Get_state (P : ExecState → Prop) psmt cdp r s res s' :
  (∀ st0 res0 st1, getRegister psmt cdp r st0 = (res0, st1) → P st0 → P st1) →
  chunkView_Get psmt cdp r s = (res, s') → P s.2 → P s'.2.
Proof.
  intros Hread. unfold chunkView_Get.
  destruct (View_Get _ r s.1 s.2) as [[res0 cv] st1] eqn:Hget.
  intros [= <- <-]. simpl. by eapply View_Get_state.
Qed.

(** Running a procedure keeps any property of the closure variables that
    [getRegister] keeps. *)
Lemma runProcedure_state (P : ExecState → Prop) psmt cdp p :
  (∀ r st0 res0 st1, getRegister psmt cdp r st0 = (res0, st1) → P st0 → P st1) →
  ∀ txView chunkView st err programs txView' chunkView' st',
    runProcedure psmt cdp p txView chunkView st = (err, programs, txView', chunkView', st') →
    P st → P st'.
Proof.
  intros Hread.
  induction p as [err0 programs0|r k IH|r value k IH|r k IH|r k IH];
    intros txView chunkView st err programs txView' chunkView' st'; simpl.
  - by intros [= <- <- <- <- <-].
  - destruct (View_Get _ r txView (chunkView, st)) as [[res txView1] [chunkView1 st1]] eqn:Hget.
    intros Hrun HP. eapply IH; [exact Hrun|].
    eapply (View_Get_state (λ s, P s.2)) in Hget; [exact Hget| |exact HP].
    intros s0 res0 s1 Hcv. eapply chunkView_Get_state; [|exact Hcv]. apply Hread.
  - apply IH.
  - apply IH.
  - apply IH.
Qed.

Lemma executeTransactions_state (P : ExecState → Prop) fcv context psmt cdp :
  (∀ r st0 res0 st1, getRegister psmt cdp r st0 = (res0, st1) → P st0 → P st1) →
  (∀ st0 tx, P st0 →
     P {| unknownRegTouch := unknownRegTouch st0; trieQueries := trieQueries st0;
          vmRuns := vmRuns st0 ++ [tx] |}) →
  ∀ transactions i programs chunkView st err chunkView' st',
    executeTransactions fcv context psmt cdp i transactions programs chunkView st
    = (err, chunkView', st') →
    P st → P st'.
Proof.
  intros Hread Hlog.
  induction transactions as [|tx transactions IH];
    intros i programs chunkView st err chunkView' st'; simpl.
  - by intros [= <- <- <-].
  - destruct (runProcedure _ _ _ _ _ _) as [[[[err1 programs1] txView1] chunkView1] st1] eqn:Hrun.
    intros Hexec HP.
    assert (P st1) as HP1.
    { eapply runProcedure_state; [exact Hread|exact Hrun|]. by apply Hlog. }
    destruct err1 as [e|].
    + injection Hexec as <- <- <-. done.
    + simpl in Hexec. eapply IH; [exact Hexec|exact HP1].
Qed.

Lemma executeTransactions_tracked fcv context psmt cdp transactions i programs chunkView st
    err chunkView' st' :
  executeTransactions fcv context psmt cdp i transactions programs chunkView st
  = (err, chunkView', st') →
  tracked psmt cdp st → tracked psmt cdp st'.
Proof.
  apply executeTransactions_state.
  - intros r st0 res0 st1. apply getRegister_tracked.
  - intros st0 tx Htr. exact Htr.
Qed.

(** The update built from a delta always has as many values as keys. *)
Lemma NewUpdate_chunkUpdate cdp chunkView :
  NewUpdate (PackStartState cdp)
    (RegisterIDSToKeys (RegisterUpdates (delta chunkView)).1)
    (RegisterValuesToValues (RegisterUpdates (delta chunkView)).2)
  = Ok (chunkUpdate cdp chunkView).
Proof.
  unfold NewUpdate, RegisterIDSToKeys, RegisterValuesToValues, RegisterUpdates. simpl.
  rewrite decide_True; [done|]. by rewrite !length_fmap.
Qed.

(** [checkEndState], case by case. *)
Lemma checkEndState_missing psmt cdp chIndex execResID endState chunkView st :
  unknownRegTouch st ≠ ∅ →
  checkEndState psmt cdp chIndex execResID endState chunkView st
  = faulty (CFMissingRegisterTouch (Key_String <$> (map_to_list (unknownRegTouch st)).*2)
              chIndex execResID).
Proof.
  intros Hne. unfold checkEndState. rewrite decide_True; [done|].
  pose proof (map_size_ne_0_lookup (unknownRegTouch st)) as Hsz.
  destruct (size (unknownRegTouch st)) eqn:Hsize; [|lia].
  by apply map_size_empty_iff in Hsize.
Qed.

Lemma checkEndState_known psmt cdp chIndex execResID endState chunkView st :
  unknownRegTouch st = ∅ →
  checkEndState psmt cdp chIndex execResID endState chunkView st
  = match psmt_Set psmt (chunkUpdate cdp chunkView) with
    | LErr (ErrMissingKeys keys) =>
        faulty (CFMissingRegisterTouch (Key_String <$> keys) chIndex execResID)
    | LErr (ErrLedger _) => faulty (CFMissingRegisterTouch [] chIndex execResID)
    | LOk expEndStateComm =>
        if decide (expEndStateComm ≠ endState)
        then faulty (CFNonMatchingFinalState expEndStateComm endState chIndex execResID)
        else passed (SpockSecret chunkView)
    end.
Proof.
  intros Hempty. unfold checkEndState. rewrite Hempty, map_size_empty.
  rewrite decide_False by lia.
  destruct (RegisterUpdates (delta chunkView)) as [regs values] eqn:Hupd.
  pose proof (NewUpdate_chunkUpdate cdp chunkView) as Hnew.
  rewrite Hupd in Hnew. simpl in Hnew. by rewrite Hnew.
Qed.

(** C2. Verification soundness: when [verifyTransactionsInContext] returns
    [(spock, nil, nil)], the trie was built from the proof of the data pack,
    every transaction ran, no register asked from the partial trie during
    the execution lies outside the proof, and the register updates of the
    chunk view move the partial trie to a root equal to the declared
    [endState]. *)
Theorem verification_soundness fcv context chunk chunkDataPack result transactions
    endState spock st :
  verifyTransactionsInContext fcv context chunk chunkDataPack result transactions endState
  = (passed spock, st) →
  verified fcv context chunkDataPack transactions endState spock st.
Proof.
  unfold verifyTransactionsInContext.
  destruct chunkDataPack as [cdp|]; [|discriminate].
  destruct (NewLedger _ _ _) as [psmt|msg] eqn:Hledger; [|discriminate].
  destruct (executeTransactions _ _ _ _ _ _ _ _ _) as [[err chunkView] st1] eqn:Hexec.
  destruct err as [e|]; [discriminate|].
  intros Hout. injection Hout as Hcheck <-.
  pose proof (executeTransactions_tracked _ _ _ _ _ _ _ _ _ _ _ _ Hexec
                (tracked_noExecution psmt cdp)) as [Hrec _].
  destruct (decide (size (unknownRegTouch st1) = 0)) as [Hsize|Hsize].
  - apply map_size_empty_iff in Hsize.
    rewrite checkEndState_known in Hcheck by done.
    destruct (psmt_Set psmt _) as [root|[keys|msg]] eqn:Hset; try discriminate.
    destruct (decide (root ≠ endState)) as [Hne|Heq]; [discriminate|].
    apply dec_stable in Heq. subst root. injection Hcheck as <-.
    exists cdp, psmt, chunkView. split_and!; try done.
    intros r Hr. apply covered_not_uncovered. intros Hunc.
    destruct (Hrec r Hr Hunc) as (r' & _ & Hlook).
    by rewrite Hsize, lookup_empty in Hlook.
  - rewrite checkEndState_missing in Hcheck; [discriminate|].
    intros Hempty. apply Hsize. by rewrite Hempty, map_size_empty.
Qed.

(** C3. [Verify] refuses a system chunk and [SystemChunkVerify] refuses any
    other chunk: each returns [(nil, nil, error)], and nothing was executed
    (no transaction was given to the virtual machine, no register was asked
    from a trie). *)
Theorem wrong_method_refused fcv vc :
  (IsSystemChunk vc = true →
   Verify fcv vc
   = (failed "wrong method invoked for verifying system chunk", noExecution))
  ∧ (IsSystemChunk vc = false →
     SystemChunkVerify fcv vc
     = (failed "wrong method invoked for verifying non-system chunk", noExecution)).
Proof.
  unfold Verify, SystemChunkVerify. split; intros ->; reflexivity.
Qed.

(** C4. A register read that reaches the partial trie and is not backed by
    the proof is recorded in [unknownRegTouch]; no SPoCK secret is returned
    then; and once all transactions have run (the loop ended without an
    internal error) the verdict is [(nil, CFMissingRegisterTouch(keys), nil)]
    with the key of that register among [keys]. Register names are taken to
    be unambiguous ([RegisterID.String] is injective). *)
Theorem missing_register_touch fcv context chunk cdp psmt result transactions endState
    err chunkView st r :
  Inj (=) (=) RegisterID_String →
  NewLedger (PackProof cdp) (PackStartState cdp) DefaultPathFinderVersion = Ok psmt →
  executeTransactions fcv context psmt cdp 0 transactions NewEmptyPrograms NewView
    noExecution = (err, chunkView, st) →
  r ∈ trieQueries st →
  uncovered psmt cdp r →
  let out :=
    verifyTransactionsInContext fcv context chunk (Some cdp) result transactions endState in
  unknownRegTouch st !! RegisterID_String r = Some (RegisterIDToKey r)
  ∧ out.1.1.1 = None
  ∧ (err = None →
     ∃ keys, out = (faulty (CFMissingRegisterTouch keys (Index chunk) (ID result)), st)
             ∧ Key_String (RegisterIDToKey r) ∈ keys).
Proof.
  intros Hinj Hledger Hexec Hr Hunc. simpl.
  pose proof (executeTransactions_tracked _ _ _ _ _ _ _ _ _ _ _ _ Hexec
                (tracked_noExecution psmt cdp)) as [Hrec _].
  destruct (Hrec r Hr Hunc) as (r' & Heq & Hlook).
  apply Hinj in Heq. subst r'.
  assert (unknownRegTouch st ≠ ∅) as Hne.
  { intros Hempty. by rewrite Hempty, lookup_empty in Hlook. }
  unfold verifyTransactionsInContext. rewrite Hledger, Hexec.
  split; [done|].
  destruct err as [e|]; simpl.
  - split; [done|]. discriminate.
  - rewrite checkEndState_missing by done. split; [done|].
    intros _. eexists. split; [reflexivity|].
    apply list_elem_of_fmap. exists (RegisterIDToKey r). split; [done|].
    apply list_elem_of_fmap. exists (RegisterID_String r, RegisterIDToKey r).
    split; [done|]. by apply elem_of_map_to_list.
Qed.

(** C5. When all transactions have run, every register asked from the
    partial trie was backed by the proof, and the update of the chunk view
    moves the trie to a root other than the declared [endState], the verdict
    is [(nil, CFNonMatchingFinalState(root, endState), nil)]: a fault that
    carries both commitments, with a nil error. *)
Theorem non_matching_final_state fcv context chunk cdp psmt result transactions endState
    chunkView st root :
  NewLedger (PackProof cdp) (PackStartState cdp) DefaultPathFinderVersion = Ok psmt →
  executeTransactions fcv context psmt cdp 0 transactions NewEmptyPrograms NewView
    noExecution = (None, chunkView, st) →
  (∀ r, r ∈ trieQueries st → covered psmt cdp r) →
  psmt_Set psmt (chunkUpdate cdp chunkView) = LOk root →
  root ≠ endState →
  verifyTransactionsInContext fcv context chunk (Some cdp) result transactions endState
  = (faulty (CFNonMatchingFinalState root endState (Index chunk) (ID result)), st).
Proof.
  intros Hledger Hexec Hcov Hset Hne.
  pose proof (executeTransactions_tracked _ _ _ _ _ _ _ _ _ _ _ _ Hexec
                (tracked_noExecution psmt cdp)) as [_ Hsound].
  assert (unknownRegTouch st = ∅) as Hempty.
  { apply map_eq. intros s. rewrite lookup_empty.
    destruct (unknownRegTouch st !! s) as [k|] eqn:Hs; [|done].
    destruct (Hsound s k Hs) as (r & Hr & Hunc & _).
    by apply Hcov, covered_not_uncovered in Hr. }
  unfold verifyTransactionsInContext. rewrite Hledger, Hexec.
  rewrite checkEndState_known by done. rewrite Hset.
  by rewrite decide_True.
Qed.

(** The two public methods run [verifyTransactionsInContext] on the chunk
    kind they accept. *)
Lemma Verify_ordinary fcv vc :
  IsSystemChunk vc = false →
  Verify fcv vc
  = verifyTransactionsInContext fcv
      (NewContextFromParent (vmCtx fcv) [WithBlockHeader (Header_ vc)])
      (Chunk_ vc) (ChunkDataPack_ vc) (Result_ vc)
      (imap (λ i txBody, {| Transaction := txBody; TxIndex := uint32 i |})
            (Transactions (Collection_ vc)))
      (VCEndState vc).
Proof. unfold Verify, verifyTransactions. by intros ->. Qed.

Lemma SystemChunkVerify_system fcv vc :
  IsSystemChunk vc = true →
  SystemChunkVerify fcv vc
  = verifyTransactionsInContext fcv
      (NewContextFromParent (systemChunkCtx fcv) [WithBlockHeader (Header_ vc)])
      (Chunk_ vc) (ChunkDataPack_ vc) (Result_ vc)
      [{| Transaction := SystemChunkTransaction (ServiceAddress (vmCtx fcv));
          TxIndex := uint32 0 |}]
      (VCEndState vc).
Proof. unfold SystemChunkVerify. by intros ->. Qed.

End VerifierFacts.

Section VerifierSample.
Import Flow Verifier.
#[local] Existing Instance Sample.resultID.
#[local] Existing Instance Sample.externals.

Lemma register_names_inj : Inj (=) (=) (RegisterID_String (Externals := Sample.externals)).
Proof.
  intros r1 r2 Heq. simpl in Heq.
  apply (inj pretty) in Heq. injection Heq as Heq. by apply (inj encode) in Heq.
Qed.

Lemma verification_soundness_witness :
  verified Sample.verifier Sample.context (Some Sample.pack)
    (Sample.procedures [Sample.script "write" "alice" "balance"]) 41 [Byte.x01]
    {| unknownRegTouch := ∅; trieQueries := [];
       vmRuns := Sample.procedures [Sample.script "write" "alice" "balance"] |}.
Proof.
  apply (verification_soundness Sample.verifier Sample.context Sample.chunk
           (Some Sample.pack) Sample.result111).
  vm_compute. reflexivity.
Defined.

Lemma wrong_method_refused_witness :
  Verify Sample.verifier Sample.systemChunk
  = (failed "wrong method invoked for verifying system chunk", noExecution)
  ∧ SystemChunkVerify Sample.verifier Sample.ordinaryChunk
    = (failed "wrong method invoked for verifying non-system chunk", noExecution).
Proof.
  split.
  - apply (proj1 (wrong_method_refused Sample.verifier Sample.systemChunk)). reflexivity.
  - apply (proj2 (wrong_method_refused Sample.verifier Sample.ordinaryChunk)). reflexivity.
Defined.

(** The first transaction reads a register of the empty owner, which the
    proof does not cover. *)
Lemma missing_register_touch_witness :
  let transactions :=
    Sample.procedures [Sample.script "read" "" "balance";
                       Sample.script "write" "alice" "balance"] in
  let r := {| Owner := ""; Controller := ""; Key := "balance" |} in
  let run :=
    executeTransactions Sample.verifier Sample.context Sample.ledger Sample.pack 0
      transactions NewEmptyPrograms NewView noExecution in
  let out :=
    verifyTransactionsInContext Sample.verifier Sample.context Sample.chunk
      (Some Sample.pack) Sample.result111 transactions 41 in
  unknownRegTouch run.2 !! RegisterID_String r = Some (RegisterIDToKey r)
  ∧ out.1.1.1 = None
  ∧ (run.1.1 = None →
     ∃ keys, out = (faulty (CFMissingRegisterTouch keys (Index Sample.chunk)
                              (ID Sample.result111)), run.2)
             ∧ Key_String (RegisterIDToKey r) ∈ keys).
Proof.
  intros transactions r run out.
  apply (missing_register_touch Sample.verifier Sample.context Sample.chunk Sample.pack
           Sample.ledger Sample.result111 transactions 41 run.1.1 run.1.2 run.2 r).
  - exact register_names_inj.
  - reflexivity.
  - vm_compute. reflexivity.
  - vm_compute. apply list_elem_of_here.
  - eexists. vm_compute. reflexivity.
Defined.

(** The declared end state 77 is not the root 41 the update leads to. *)
Lemma non_matching_final_state_witness :
  let transactions :=
    Sample.procedures [Sample.script "read" "bob" "balance";
                       Sample.script "write" "alice" "balance"] in
  let run :=
    executeTransactions Sample.verifier Sample.context Sample.ledger Sample.pack 0
      transactions NewEmptyPrograms NewView noExecution in
  verifyTransactionsInContext Sample.verifier Sample.context Sample.chunk
    (Some Sample.pack) Sample.result111 transactions 77
  = (faulty (CFNonMatchingFinalState 41 77 (Index Sample.chunk) (ID Sample.result111)),
     run.2).
Proof.
  intros transactions run.
  apply (non_matching_final_state Sample.verifier Sample.context Sample.chunk Sample.pack
           Sample.ledger Sample.result111 transactions 77 run.1.2 run.2 41).
  - reflexivity.
  - vm_compute. reflexivity.
  - intros r Hr. vm_compute in Hr. apply list_elem_of_singleton in Hr as ->.
    intros keys. vm_compute. discriminate.
  - vm_compute. reflexivity.
  - discriminate.
Defined.

(** A missing read followed by an internal error of the virtual machine:
    the verdict is the error, with neither fault nor SPoCK secret. *)
Example missing_read_then_crash :
  (verifyTransactionsInContext Sample.verifier Sample.context Sample.chunk
     (Some Sample.pack) Sample.result111
     (Sample.procedures [Sample.script "read" "" "balance"; Sample.script "crash" "" ""])
     41).1
  = failed "failed to execute transaction: 1 (out of memory)".
Proof. vm_compute. reflexivity. Qed.

End VerifierSample.

(** ** The chunk data pack requester *)

Section RequesterFacts.
Import Flow Requester.

Implicit Types (e : Engine) (st : State) (request : ChunkDataPackRequest)
  (m : gmap N ChunkRequestStatus) (c : Call).

Lemma NoDup_fmap_eq {A B : Type} (f : A → B) (l : list A) x y :
  NoDup (f <$> l) → x ∈ l → y ∈ l → f x = f y → x = y.
Proof.
  induction l as [|a l IH]; simpl; intros Hnd Hx Hy Hf.
  - by apply elem_of_nil in Hx.
  - apply NoDup_cons in Hnd as [Hnot Hnd].
    apply elem_of_cons in Hx as [->|Hx], Hy as [->|Hy]; try done.
    + exfalso. apply Hnot. rewrite Hf. by apply list_elem_of_fmap_2.
    + exfalso. apply Hnot. rewrite <- Hf. by apply list_elem_of_fmap_2.
    + by apply IH.
Qed.

(** The snapshot holds at most one request per chunk. *)
Lemma All_NoDup m : filed m → NoDup (ChunkID <$> All m).
Proof.
  intros Hfiled. unfold All. rewrite <- !list_fmap_compose.
  assert ((ChunkID ∘ RequestInfo ∘ snd) <$> map_to_list m = (map_to_list m).*1) as ->.
  { apply Forall_fmap_ext_1, Forall_forall. intros [k s] Hin. simpl.
    apply elem_of_map_to_list in Hin. by apply Hfiled in Hin. }
  apply NoDup_fst_map_to_list.
Qed.

(** The mempool operations keep every request under its chunk ID. *)
Lemma Add_filed initialRetry request m : filed m → filed (Add initialRetry request m).2.
Proof.
  intros Hfiled. unfold Add. destruct (m !! ID request); simpl; [done|].
  by apply map_Forall_insert_2.
Qed.

Lemma Rem_filed chunkID m : filed m → filed (Rem chunkID m).2.
Proof.
  intros Hfiled. unfold Rem. destruct (m !! chunkID); simpl; [|done].
  by apply map_Forall_delete.
Qed.

Lemma UpdateRequestHistory_filed chunkID updater m :
  filed m → filed (UpdateRequestHistory chunkID updater m).2.
Proof.
  intros Hfiled. unfold UpdateRequestHistory.
  destruct (m !! chunkID) as [s|] eqn:Hs; simpl; [|done].
  destruct (updater _ _ _) as [[attempts lastAttempt] retryAfter]. simpl.
  apply map_Forall_insert_2; [|done]. simpl. by apply Hfiled in Hs.
Qed.

(** The engine keeps the mempool filed. *)
Lemma handleChunkDataPack_filed e originID chunkDataPack collection st :
  filed (pendingRequests st) →
  filed (pendingRequests (handleChunkDataPack e originID chunkDataPack collection st)).
Proof.
  intros Hfiled. unfold handleChunkDataPack.
  pose proof (Rem_filed (Verifier.ChunkID chunkDataPack) _ Hfiled) as Hrem.
  destruct (Rem _ _) as [[] pending]; done.
Qed.

Lemma Request_filed initialRetry e request st :
  filed (pendingRequests st) →
  filed (pendingRequests (Request initialRetry e request st)).
Proof.
  intros Hfiled. unfold Request.
  pose proof (Add_filed initialRetry request _ Hfiled) as Hadd.
  destruct (Add _ _ _) as [added pending]; done.
Qed.

Lemma handleChunkDataPackRequest_filed e request lastSealedHeight st :
  filed (pendingRequests st) →
  filed (pendingRequests (handleChunkDataPackRequest e request lastSealedHeight st)).
Proof.
  intros Hfiled. unfold handleChunkDataPackRequest.
  destruct (decide _).
  - pose proof (Rem_filed (ID request) _ Hfiled) as Hrem.
    destruct (Rem _ _) as [removed pending]; done.
  - destruct (canDispatchRequest _ _ _); simpl; [|done].
    unfold requestChunkDataPack. destruct (con_Publish _ _ _); simpl; [done|].
    unfold onRequestDispatched. simpl.
    pose proof (UpdateRequestHistory_filed (ChunkID request) (reqUpdaterFunc e) _ Hfiled)
      as Hupd.
    destruct (UpdateRequestHistory _ _ _) as [updated pending]; done.
Qed.

Lemma onTimer_filed e lastSealed st st' :
  onTimer e (Ok lastSealed) st = Returns st' →
  filed (pendingRequests st) → filed (pendingRequests st').
Proof.
  unfold onTimer. intros [= <-]. generalize (All (pendingRequests st)). intros l.
  revert st. induction l as [|request l IH]; intros st Hfiled; simpl; [done|].
  by apply IH, handleChunkDataPackRequest_filed.
Qed.

(** Without the last sealed header the tick ends the process. *)
Lemma onTimer_fatal e msg st : onTimer e (Err msg) st = Fatal.
Proof. reflexivity. Qed.

(** One request of the snapshot: the mempool gets no new chunk; a request of
    a sealed block is removed and its handler notified, and that is all; any
    other request makes at most a publish for its own chunk. *)
Lemma handleChunkDataPackRequest_spec e request lastSealedHeight st :
  let st' := handleChunkDataPackRequest e request lastSealedHeight st in
  (∀ k, pendingRequests st !! k = None → pendingRequests st' !! k = None)
  ∧ if decide (Height request ≤ lastSealedHeight)%N
    then pendingRequests st' !! ChunkID request = None
         ∧ calls st' = calls st ++ [NotifyChunkDataPackSealed (ChunkID request)]
    else ∃ new, calls st' = calls st ++ new
                ∧ ∀ c, c ∈ new →
                       ∃ nonce targetIDs,
                         c = Publish {| ReqChunkID := ChunkID request; Nonce := nonce |}
                               targetIDs.
Proof.
  unfold handleChunkDataPackRequest. simpl.
  destruct (decide (Height request ≤ lastSealedHeight)%N) as [Hsealed|Hopen].
  - unfold Rem, ID, ChunkDataPackRequest_ID.
    destruct (pendingRequests st !! ChunkID request) eqn:Hin; simpl.
    + split_and!; [|by rewrite lookup_delete_eq|done].
      intros k Hk. destruct (decide (ChunkID request = k)) as [<-|Hne].
      * by rewrite lookup_delete_eq.
      * by rewrite lookup_delete_ne.
    + done.
  - destruct (canDispatchRequest e (ChunkID request) st); simpl.
    + unfold requestChunkDataPack.
      destruct (con_Publish e _ _) as [err|]; simpl.
      * split; [done|]. eexists. split; [reflexivity|].
        intros c Hc. apply list_elem_of_singleton in Hc as ->. eauto.
      * unfold onRequestDispatched, UpdateRequestHistory. simpl.
        destruct (pendingRequests st !! ChunkID request) as [s|] eqn:Hs; simpl.
        -- destruct (reqUpdaterFunc e _ _ _) as [[attempts lastAttempt] retryAfter]. simpl.
           split.
           ++ intros k Hk. rewrite lookup_insert_ne; [done|]. congruence.
           ++ eexists. split; [reflexivity|].
              intros c Hc. apply list_elem_of_singleton in Hc as ->. eauto.
        -- split; [done|]. eexists. split; [reflexivity|].
           intros c Hc. apply list_elem_of_singleton in Hc as ->. eauto.
    + split; [done|]. exists []. split; [by rewrite app_nil_r|].
      intros c Hc. by apply elem_of_nil in Hc.
Qed.

(** The whole snapshot. *)
Lemma onTimer_loop e lastSealedHeight (l : list ChunkDataPackRequest) :
  ∀ st,
    let st' := foldl (λ st request,
                        handleChunkDataPackRequest e request lastSealedHeight st) st l in
    (∀ k, pendingRequests st !! k = None → pendingRequests st' !! k = None)
    ∧ ∃ new,
        calls st' = calls st ++ new
        ∧ (∀ c, c ∈ new →
             ∃ request, request ∈ l
               ∧ (((Height request ≤ lastSealedHeight)%N
                   ∧ c = NotifyChunkDataPackSealed (ChunkID request))
                  ∨ (¬ (Height request ≤ lastSealedHeight)%N
                     ∧ ∃ nonce targetIDs,
                         c = Publish {| ReqChunkID := ChunkID request; Nonce := nonce |}
                               targetIDs)))
        ∧ (∀ request, request ∈ l → (Height request ≤ lastSealedHeight)%N →
             NotifyChunkDataPackSealed (ChunkID request) ∈ new
             ∧ pendingRequests st' !! ChunkID request = None).
Proof.
  induction l as [|req l IH]; intros st; simpl.
  - split; [done|]. exists []. split_and!.
    + by rewrite app_nil_r.
    + intros c Hc. by apply elem_of_nil in Hc.
    + intros request Hr. by apply elem_of_nil in Hr.
  - pose proof (handleChunkDataPackRequest_spec e req lastSealedHeight st) as [Hkeep Hstep].
    simpl in Hkeep, Hstep.
    destruct (IH (handleChunkDataPackRequest e req lastSealedHeight st))
      as (Hkeep' & new' & Hcalls' & Hall' & Hsealed').
    simpl in Hkeep', Hcalls', Hsealed'.
    split; [by eauto|].
    destruct (decide (Height req ≤ lastSealedHeight)%N) as [Hsealed|Hopen].
    + destruct Hstep as [Hgone Hcalls].
      exists (NotifyChunkDataPackSealed (ChunkID req) :: new'). split_and!.
      * rewrite Hcalls', Hcalls, <- app_assoc. done.
      * intros c Hc. apply elem_of_cons in Hc as [->|Hc].
        -- exists req. split; [apply list_elem_of_here|]. by left.
        -- destruct (Hall' c Hc) as (request & Hin & Hcase).
           exists request. split; [by apply list_elem_of_further|done].
      * intros request Hin Hle. apply elem_of_cons in Hin as [->|Hin].
        -- split; [apply list_elem_of_here|]. by apply Hkeep'.
        -- destruct (Hsealed' request Hin Hle). split; [by apply list_elem_of_further|done].
    + destruct Hstep as (new & Hcalls & Hnew).
      exists (new ++ new'). split_and!.
      * rewrite Hcalls', Hcalls, <- app_assoc. done.
      * intros c Hc. apply elem_of_app in Hc as [Hc|Hc].
        -- exists req. split; [apply list_elem_of_here|]. right. split; [done|]. by apply Hnew.
        -- destruct (Hall' c Hc) as (request & Hin & Hcase).
           exists request. split; [by apply list_elem_of_further|done].
      * intros request Hin Hle. apply elem_of_cons in Hin as [->|Hin]; [done|].
        destruct (Hsealed' request Hin Hle). split; [|done].
        apply elem_of_app. by right.
Qed.

(** C6. On a timer tick with the last sealed header read from the protocol
    state, every request of the mempool whose height is at most the last
    sealed height is removed from the mempool, the handler is notified that
    its chunk belongs to a sealed block, and no request for that chunk is
    given to the conduit during the tick. *)
Theorem sealed_requests_dropped e lastSealed st st' request :
  filed (pendingRequests st) →
  onTimer e (Ok lastSealed) st = Returns st' →
  request ∈ All (pendingRequests st) →
  (Height request ≤ Flow.Height lastSealed)%N →
  pendingRequests st' !! ChunkID request = None
  ∧ NotifyChunkDataPackSealed (ChunkID request) ∈ callsSince st st'
  ∧ ∀ c, c ∈ callsSince st st' → publishes (ChunkID request) c = false.
Proof.
  intros Hfiled Htick Hin Hle. unfold onTimer in Htick. injection Htick as <-.
  destruct (onTimer_loop e (Flow.Height lastSealed) (All (pendingRequests st)) st)
    as (_ & new & Hcalls & Hall & Hsealed).
  simpl in Hcalls, Hsealed.
  unfold callsSince. rewrite Hcalls, drop_app_length.
  destruct (Hsealed request Hin Hle) as [Hnotified Hgone].
  split_and!; [done..|].
  intros c Hc. destruct (Hall c Hc) as (request' & Hin' & [[_ ->]|[Hopen Hpub]]); [done|].
  destruct Hpub as (nonce & targetIDs & ->). simpl.
  apply bool_decide_eq_false. intros Heq.
  assert (request' = request) as ->; [|done].
  eapply (NoDup_fmap_eq ChunkID); eauto using All_NoDup.
Qed.

(** A response is handed to the handler exactly when its chunk is in the
    mempool, and the chunk is out of the mempool afterwards. *)
Lemma handleChunkDataPack_spec e originID chunkDataPack collection st :
  let st' := handleChunkDataPack e originID chunkDataPack collection st in
  pendingRequests st' !! Verifier.ChunkID chunkDataPack = None
  ∧ callsSince st st'
    = if pendingRequests st !! Verifier.ChunkID chunkDataPack is Some _
      then [HandleChunkDataPack originID chunkDataPack collection]
      else [].
Proof.
  unfold handleChunkDataPack, Rem, callsSince.
  destruct (pendingRequests st !! Verifier.ChunkID chunkDataPack) eqn:Hin; simpl.
  - split; [by rewrite lookup_delete_eq|]. by rewrite drop_app_length.
  - split; [done|]. by rewrite drop_all.
Qed.

Lemma callsSince_trans st st1 st2 :
  (∃ new, calls st1 = calls st ++ new) →
  (∃ new, calls st2 = calls st1 ++ new) →
  callsSince st st2 = callsSince st st1 ++ callsSince st1 st2.
Proof.
  intros [new1 H1] [new2 H2]. unfold callsSince.
  rewrite H2, (drop_app_length (calls st1)), H1, <- app_assoc, !drop_app_length. done.
Qed.

Lemma handleChunkDataPack_calls e originID chunkDataPack collection st :
  ∃ new, calls (handleChunkDataPack e originID chunkDataPack collection st)
         = calls st ++ new.
Proof.
  unfold handleChunkDataPack, Rem.
  destruct (pendingRequests st !! _); simpl; [by eauto|].
  exists []. by rewrite app_nil_r.
Qed.

(** C7, as amended. A [ChunkDataResponse] is handed to the handler only if
    its chunk ID is in the mempool of pending requests, from which it is
    removed then. So of two responses with the same chunk ID that arrive one
    after the other, the second is never handed over, and the handler is
    called at most once for the chunk: once if the chunk ID was pending when
    the first response came, and not at all otherwise. *)
Theorem response_handled_at_most_once e origin1 origin2 resp1 resp2 st :
  Verifier.ChunkID (ChunkDataPack resp1) = Verifier.ChunkID (ChunkDataPack resp2) →
  let chunkID := Verifier.ChunkID (ChunkDataPack resp1) in
  let st1 := (process e origin1 (EvChunkDataResponse resp1) st).2 in
  let st2 := (process e origin2 (EvChunkDataResponse resp2) st1).2 in
  callsSince st st1
  = (if pendingRequests st !! chunkID is Some _
     then [HandleChunkDataPack origin1 (ChunkDataPack resp1) (Collection resp1)]
     else [])
  ∧ callsSince st1 st2 = []
  ∧ length (handled chunkID (callsSince st st2))
    = (if pendingRequests st !! chunkID is Some _ then 1 else 0).
Proof.
  intros Hsame. simpl.
  pose proof (handleChunkDataPack_spec e origin1 (ChunkDataPack resp1) (Collection resp1) st)
    as [Hgone Hfirst].
  simpl in Hgone, Hfirst.
  pose proof (handleChunkDataPack_spec e origin2 (ChunkDataPack resp2) (Collection resp2)
                (handleChunkDataPack e origin1 (ChunkDataPack resp1) (Collection resp1) st))
    as [_ Hsecond].
  simpl in Hsecond. rewrite <- Hsame, Hgone in Hsecond.
  split_and!; [done..|].
  rewrite (callsSince_trans st _ _) by apply handleChunkDataPack_calls.
  rewrite Hsecond, app_nil_r, Hfirst.
  destruct (pendingRequests st !! _); [|done].
  unfold handled. rewrite filter_cons. simpl.
  rewrite bool_decide_eq_true_2 by done. done.
Qed.

(** C10. While a request is handled, a publish that fails leaves the whole
    mempool as it was, so the history of the request keeps its attempts,
    last attempt and retry delay; and a history that differs afterwards is
    the updater function applied to the old one, after the publish of this
    request went through. *)
Theorem history_updated_only_after_publish e request lastSealedHeight st :
  let st' := handleChunkDataPackRequest e request lastSealedHeight st in
  let req := {| ReqChunkID := ChunkID request; Nonce := rand_Uint64 e (draws st) |} in
  let targetIDs := SampleTargets e request (requestTargets e) in
  (¬ (Height request ≤ lastSealedHeight)%N →
   canDispatchRequest e (ChunkID request) st = true →
   is_Some (con_Publish e req targetIDs) →
   pendingRequests st' = pendingRequests st
   ∧ callsSince st st' = [Publish req targetIDs])
  ∧ (∀ chunkID history,
       RequestHistory chunkID (pendingRequests st') = Some history →
       RequestHistory chunkID (pendingRequests st) ≠ Some history →
       chunkID = ChunkID request
       ∧ con_Publish e req targetIDs = None
       ∧ callsSince st st' = [Publish req targetIDs]
       ∧ ∃ attempts lastAttempt retryAfter,
           RequestHistory chunkID (pendingRequests st)
           = Some (attempts, lastAttempt, retryAfter)
           ∧ history = reqUpdaterFunc e attempts lastAttempt retryAfter).
Proof.
  simpl. unfold handleChunkDataPackRequest, callsSince. split.
  - intros Hopen Hq [err Hpub]. rewrite decide_False by done. rewrite Hq. simpl.
    unfold requestChunkDataPack. rewrite Hpub. simpl.
    split; [done|]. by rewrite drop_app_length.
  - intros chunkID history Hafter Hbefore.
    destruct (decide (Height request ≤ lastSealedHeight)%N) as [Hsealed|Hopen].
    { exfalso. apply Hbefore. revert Hafter. unfold Rem, RequestHistory, ID, ChunkDataPackRequest_ID.
      destruct (pendingRequests st !! ChunkID request) eqn:Hin; simpl; [|done].
      destruct (decide (ChunkID request = chunkID)) as [<-|Hne].
      - by rewrite lookup_delete_eq.
      - by rewrite lookup_delete_ne. }
    destruct (canDispatchRequest e (ChunkID request) st); simpl in *; [|done].
    unfold requestChunkDataPack in *.
    destruct (con_Publish e _ _) as [err|]; simpl in *; [done|].
    unfold onRequestDispatched, UpdateRequestHistory, RequestHistory in *. simpl in *.
    destruct (pendingRequests st !! ChunkID request) as [s|] eqn:Hs; simpl in *; [|done].
    destruct (reqUpdaterFunc e _ _ _) as [[attempts lastAttempt] retryAfter] eqn:Hupd.
    simpl in *.
    destruct (decide (ChunkID request = chunkID)) as [<-|Hne].
    + rewrite lookup_insert_eq in Hafter. simpl in Hafter. injection Hafter as <-.
      split_and!; try done; [by rewrite drop_app_length|].
      rewrite Hs. simpl. eauto.
    + rewrite lookup_insert_ne in Hafter by done. done.
Qed.

End RequesterFacts.

Section RequesterSample.
Import Flow Requester.

Lemma waiting_filed : filed (pendingRequests Sample.waiting).
Proof.
  unfold filed, Sample.waiting. simpl.
  apply map_Forall_insert_2; [done|].
  apply map_Forall_insert_2; [done|].
  apply map_Forall_empty.
Qed.

(** A tick with block 10 sealed: the request of height 5 is dropped, the
    one of height 50 is published. *)
Example tick : onTimer Sample.engine (Ok Sample.sealed10) Sample.waiting = Returns Sample.ticked.
Proof. vm_compute. reflexivity. Qed.

Lemma sealed_requests_dropped_witness :
  pendingRequests Sample.ticked !! ChunkID Sample.request7 = None
  ∧ NotifyChunkDataPackSealed (ChunkID Sample.request7)
    ∈ callsSince Sample.waiting Sample.ticked
  ∧ ∀ c, c ∈ callsSince Sample.waiting Sample.ticked →
         publishes (ChunkID Sample.request7) c = false.
Proof.
  apply (sealed_requests_dropped Sample.engine Sample.sealed10 Sample.waiting Sample.ticked
           Sample.request7).
  - exact waiting_filed.
  - vm_compute. reflexivity.
  - vm_compute. apply list_elem_of_further, list_elem_of_here.
  - vm_compute. discriminate.
Defined.

(** Chunk 7 is pending: the first response is handed over, the second is
    dropped. *)
Lemma response_handled_at_most_once_witness :
  let chunkID := Verifier.ChunkID (ChunkDataPack Sample.response7) in
  let st1 := (process Sample.engine 1 (EvChunkDataResponse Sample.response7)
                Sample.waiting).2 in
  let st2 := (process Sample.engine 2 (EvChunkDataResponse Sample.response7) st1).2 in
  callsSince Sample.waiting st1
  = (if pendingRequests Sample.waiting !! chunkID is Some _
     then [HandleChunkDataPack 1 (ChunkDataPack Sample.response7)
             (Collection Sample.response7)]
     else [])
  ∧ callsSince st1 st2 = []
  ∧ length (handled chunkID (callsSince Sample.waiting st2))
    = (if pendingRequests Sample.waiting !! chunkID is Some _ then 1 else 0).
Proof.
  apply (response_handled_at_most_once Sample.engine 1 2 Sample.response7 Sample.response7
           Sample.waiting).
  reflexivity.
Defined.

(** C7, as stated, fails: two responses for a chunk that is not pending
    (never requested, or dropped since) lead to no call of the handler, not
    to one. *)
Lemma unsolicited_responses_not_handled :
  let st1 := (process Sample.engine 1 (EvChunkDataResponse Sample.response7)
                Sample.idle).2 in
  let st2 := (process Sample.engine 2 (EvChunkDataResponse Sample.response7) st1).2 in
  length (handled (Verifier.ChunkID (ChunkDataPack Sample.response7))
            (callsSince Sample.idle st2)) ≠ 1.
Proof. vm_compute. discriminate. Qed.

(** In [unlucky] the nonce drawn for chunk 8 is odd and the conduit refuses
    the message: the mempool stays as it was. *)
Lemma history_updated_only_after_publish_witness :
  let st' := handleChunkDataPackRequest Sample.engine Sample.request8 10 Sample.unlucky in
  pendingRequests st' = pendingRequests Sample.unlucky
  ∧ callsSince Sample.unlucky st' = [Publish {| ReqChunkID := 8; Nonce := 1 |} [1; 4]%N].
Proof.
  apply (proj1 (history_updated_only_after_publish Sample.engine Sample.request8 10
                  Sample.unlucky)).
  - simpl. lia.
  - reflexivity.
  - vm_compute. eauto.
Defined.

End RequesterSample.

(** ** The payload builder *)

Section BuilderFacts.
Import Flow Builder.
Context `{Entity ExecutionResult} `{Entity Header}.

Implicit Types (candidates irss : list IncorporatedResultSeal) (last : N)
  (irs : IncorporatedResultSeal) (b : Builder) (f : Fork)
  (tree : list (ExecutionReceipt * Header)) (receipt : ExecutionReceipt).

Lemma selectSeals_chain candidates count :
  ∀ last, sealChain last (selectSeals candidates last count).
Proof.
  induction count as [|count IH]; intros last; simpl; [done|].
  destruct (List.find _ candidates) as [irs|] eqn:Hfind; simpl; [|done].
  apply find_some in Hfind as [_ Hfollows].
  apply bool_decide_eq_true in Hfollows. split; [done|apply IH].
Qed.

Lemma selectSeals_length candidates count :
  ∀ last, length (selectSeals candidates last count) ≤ count.
Proof.
  induction count as [|count IH]; intros last; simpl; [done|].
  destruct (List.find _ candidates) as [irs|]; simpl; [|lia].
  specialize (IH (SealResultID (TheSeal irs))). lia.
Qed.

Lemma selectSeals_candidates candidates count :
  ∀ last irs, irs ∈ selectSeals candidates last count → irs ∈ candidates.
Proof.
  induction count as [|count IH]; intros last irs; simpl.
  - intros Hin. by apply elem_of_nil in Hin.
  - destruct (List.find _ candidates) as [irs0|] eqn:Hfind.
    + intros Hin. apply elem_of_cons in Hin as [->|Hin]; [|by eapply IH].
      apply find_some in Hfind as [Hin _]. by apply list_elem_of_In.
    + intros Hin. by apply elem_of_nil in Hin.
Qed.

(** The selection ends before [count] seals only at a gap: no candidate
    follows the seal taken last. *)
Lemma selectSeals_gap candidates count :
  ∀ last, length (selectSeals candidates last count) < count →
          ∀ irs, irs ∈ candidates →
                 follows (lastSealed last (selectSeals candidates last count)) irs = false.
Proof.
  induction count as [|count IH]; intros last; simpl; [lia|].
  destruct (List.find _ candidates) as [irs0|] eqn:Hfind; simpl.
  - intros Hlen irs Hin. unfold lastSealed. simpl. apply IH; [lia|done].
  - intros _ irs Hin. apply list_elem_of_In in Hin.
    by apply (find_none _ _ Hfind) in Hin.
Qed.

Lemma selectSeals_missing_next candidates count last :
  (∀ irs, irs ∈ candidates → follows last irs = false) →
  selectSeals candidates last count = [].
Proof.
  intros Hnone. destruct count as [|count]; simpl; [done|].
  destruct (List.find _ candidates) as [irs|] eqn:Hfind; [|done].
  apply find_some in Hfind as [Hin Hfollows].
  apply list_elem_of_In, Hnone in Hin. congruence.
Qed.

(** C8. In the payload [BuildOn] builds, the seals are those of a chain of
    candidate seals that starts at the result of the last seal of the fork:
    the incorporated result of each has as previous result the result of the
    seal before it. There are at most [maxSealCount] of them; fewer only if
    no candidate follows the last one taken, and none at all if no candidate
    follows the last seal of the fork. *)
Theorem seals_form_chain b parentID payload :
  BuildOn b parentID = Ok payload →
  ∃ f irss,
    readFork b parentID = Ok f
    ∧ Seals payload = TheSeal <$> irss
    ∧ (∀ irs, irs ∈ irss → irs ∈ sealCandidates (unsealed f) (sealPool b))
    ∧ sealChain (SealResultID (lastSeal f)) irss
    ∧ length (Seals payload) ≤ maxSealCount (cfg b)
    ∧ (length (Seals payload) < maxSealCount (cfg b) →
       ∀ irs, irs ∈ sealCandidates (unsealed f) (sealPool b) →
              follows (lastSealed (SealResultID (lastSeal f)) irss) irs = false)
    ∧ ((∀ irs, irs ∈ sealCandidates (unsealed f) (sealPool b) →
               follows (SealResultID (lastSeal f)) irs = false) →
       Seals payload = []).
Proof.
  unfold BuildOn. destruct (readFork b parentID) as [f|e]; [|discriminate].
  intros [= <-]. simpl. exists f, (insertableSeals b f). unfold insertableSeals.
  rewrite length_fmap. split_and!; try done.
  - apply selectSeals_candidates.
  - apply selectSeals_chain.
  - apply selectSeals_length.
  - apply selectSeals_gap.
  - intros Hnone. by rewrite selectSeals_missing_next.
Qed.

(** What the execution tree yields passed the receipt filter. *)
Lemma reach_filtered blockFilter receiptFilter tree :
  ∀ acc, Forall (λ receipt, receiptFilter receipt = true) acc.2 →
         Forall (λ receipt, receiptFilter receipt = true)
                (foldl (reach blockFilter receiptFilter) acc tree).2.
Proof.
  induction tree as [|[receipt header] tree IH]; intros acc Hacc; simpl; [done|].
  apply IH. destruct (blockFilter header && _); [|done]. simpl.
  destruct (receiptFilter receipt) eqn:Hf; [|done].
  apply Forall_app. split; [done|]. by apply Forall_singleton.
Qed.

Lemma ReachableReceipts_filtered tree fromResultID blockFilter receiptFilter receipt :
  receipt ∈ ReachableReceipts tree fromResultID blockFilter receiptFilter →
  receiptFilter receipt = true.
Proof.
  intros Hin. unfold ReachableReceipts in Hin.
  pose proof (reach_filtered blockFilter receiptFilter tree ({[fromResultID]}, [])
                (Forall_nil_2 _)) as Hall.
  rewrite Forall_forall in Hall. by apply Hall.
Qed.

Lemma selectReceipts_filtered b f receipt :
  receipt ∈ selectReceipts b (fork f) (unsealed f) (lastSeal f) →
  receiptFilter b (fork f) (SealBlockID (lastSeal f)) receipt = true.
Proof.
  unfold selectReceipts. intros Hin.
  apply elem_of_take in Hin as (i & Hlook & _).
  apply list_elem_of_lookup_2 in Hlook.
  by apply ReachableReceipts_filtered in Hlook.
Qed.

(** C9. In the payload [BuildOn] builds, no receipt is already incorporated
    in a block of the fork; and the result of a selected receipt is in the
    payload exactly when it was not incorporated on the fork before, the
    meta of the receipt being in the payload either way. *)
Theorem receipts_not_duplicated b parentID payload :
  BuildOn b parentID = Ok payload →
  ∃ f receipts,
    readFork b parentID = Ok f
    ∧ receipts = selectReceipts b (fork f) (unsealed f) (lastSeal f)
    ∧ Receipts payload = Meta <$> receipts
    ∧ (∀ meta, meta ∈ Receipts payload → meta ∉ incorporatedReceipts (fork f))
    ∧ (∀ result, result ∈ Results payload →
         (ID result ∉ incorporatedResults (fork f))
         ∧ ∃ receipt, receipt ∈ receipts ∧ Result receipt = result)
    ∧ (∀ receipt, receipt ∈ receipts →
         ID (Result receipt) ∉ incorporatedResults (fork f) →
         Result receipt ∈ Results payload).
Proof.
  unfold BuildOn. destruct (readFork b parentID) as [f|e]; [|discriminate].
  intros [= <-]. simpl. eexists f, _. split_and!; try reflexivity.
  - intros meta Hin. apply list_elem_of_fmap in Hin as (receipt & -> & Hin).
    apply selectReceipts_filtered in Hin. unfold receiptFilter in Hin.
    apply andb_prop in Hin as [Hin _]. apply andb_prop in Hin as [Hin _].
    by apply bool_decide_eq_true in Hin.
  - intros result Hin. unfold insertableResults in Hin.
    apply list_elem_of_fmap in Hin as (receipt & -> & Hin).
    apply list_elem_of_filter in Hin as [Hnew Hin]. eauto.
  - intros receipt Hin Hnew. unfold insertableResults.
    apply list_elem_of_fmap_2. by apply list_elem_of_filter.
Qed.

End BuilderFacts.

Section BuilderSample.
Import Flow Builder.
#[local] Existing Instance Sample.resultID.
#[local] Existing Instance Sample.headerID.

(** Room for one seal: the seal for block 111 is taken, the one for 112 is
    left. The receipt of node 1 for block 111 is on the fork already; that of
    node 2 brings only its meta, the result being on the fork. *)
Example build_one_seal :
  BuildOn (Sample.builder 1 [Sample.sealFor 111; Sample.sealFor 112]) 112 = Ok Sample.built.
Proof. vm_compute. reflexivity. Qed.

(** The seal for block 111 is not in the pool: no seal is taken. *)
Example build_missing_next_seal :
  BuildOn (Sample.builder 5 [Sample.sealFor 112]) 112
  = Ok {| Guarantees := []; Seals := [];
          Receipts := Receipts Sample.built; Results := Results Sample.built |}.
Proof. vm_compute. reflexivity. Qed.

(** Room for five seals and both seals in the pool, in any order: both are
    taken, in the order of the chain. *)
Example build_all_seals :
  BuildOn (Sample.builder 5 [Sample.sealFor 112; Sample.sealFor 111]) 112
  = Ok {| Guarantees := [];
          Seals := [TheSeal (Sample.sealFor 111); TheSeal (Sample.sealFor 112)];
          Receipts := Receipts Sample.built; Results := Results Sample.built |}.
Proof. vm_compute. reflexivity. Qed.

Lemma seals_form_chain_witness :
  let b := Sample.builder 1 [Sample.sealFor 111; Sample.sealFor 112] in
  ∃ f irss,
    readFork b 112 = Ok f
    ∧ Seals Sample.built = TheSeal <$> irss
    ∧ (∀ irs, irs ∈ irss → irs ∈ sealCandidates (unsealed f) (sealPool b))
    ∧ sealChain (SealResultID (lastSeal f)) irss
    ∧ length (Seals Sample.built) ≤ maxSealCount (cfg b)
    ∧ (length (Seals Sample.built) < maxSealCount (cfg b) →
       ∀ irs, irs ∈ sealCandidates (unsealed f) (sealPool b) →
              follows (lastSealed (SealResultID (lastSeal f)) irss) irs = false)
    ∧ ((∀ irs, irs ∈ sealCandidates (unsealed f) (sealPool b) →
               follows (SealResultID (lastSeal f)) irs = false) →
       Seals Sample.built = []).
Proof.
  apply (seals_form_chain (Sample.builder 1 [Sample.sealFor 111; Sample.sealFor 112]) 112
           Sample.built).
  vm_compute. reflexivity.
Defined.

Lemma receipts_not_duplicated_witness :
  let b := Sample.builder 1 [Sample.sealFor 111; Sample.sealFor 112] in
  ∃ f receipts,
    readFork b 112 = Ok f
    ∧ receipts = selectReceipts b (fork f) (unsealed f) (lastSeal f)
    ∧ Receipts Sample.built = Meta <$> receipts
    ∧ (∀ meta, meta ∈ Receipts Sample.built → meta ∉ incorporatedReceipts (fork f))
    ∧ (∀ result, result ∈ Results Sample.built →
         (ID result ∉ incorporatedResults (fork f))
         ∧ ∃ receipt, receipt ∈ receipts ∧ Result receipt = result)
    ∧ (∀ receipt, receipt ∈ receipts →
         ID (Result receipt) ∉ incorporatedResults (fork f) →
         Result receipt ∈ Results Sample.built).
Proof.
  apply (receipts_not_duplicated (Sample.builder 1 [Sample.sealFor 111; Sample.sealFor 112])
           112 Sample.built).
  vm_compute. reflexivity.
Defined.

End BuilderSample.

(** ** The forest of tries *)

Section ForestFacts.
Import Forest.
Context `{Tries}.

Lemma position_Some key c i e :
  position key c = Some (i, e) → entries c !! i = Some e ∧ e.1 = key.
Proof. unfold position. intros Hf. apply list_find_Some in Hf. tauto. Qed.

Lemma position_None key c :
  position key c = None ↔ key ∉ (entries c).*1.
Proof.
  unfold position. rewrite list_find_None, Forall_forall, list_elem_of_fmap. split.
  - intros Hn [e [-> He]]. exact (Hn e He eq_refl).
  - intros Hn e He Heq. apply Hn. exists e. auto.
Qed.

Lemma position_first key c i e :
  NoDup (entries c).*1 → entries c !! i = Some e → e.1 = key →
  position key c = Some (i, e).
Proof.
  intros Hnd Hi Hk. unfold position. apply list_find_Some. repeat split; auto.
  intros j y Hj Hlt Hy.
  assert ((entries c).*1 !! j = Some key) as H1 by (rewrite list_lookup_fmap, Hj; simpl; congruence).
  assert ((entries c).*1 !! i = Some key) as H2 by (rewrite list_lookup_fmap, Hi; simpl; congruence).
  pose proof (NoDup_lookup _ _ _ _ Hnd H1 H2). lia.
Qed.

(** A hit of [Cache.Get] moves the entry to the newest end. *)
Lemma lru_Get_hit key c t c' :
  lru_Get key c = (Some t, c') →
  ∃ i, entries c !! i = Some (key, t)
       ∧ entries c' = delete i (entries c) ++ [(key, t)] ∧ size c' = size c.
Proof.
  unfold lru_Get. destruct (position key c) as [[i e]|] eqn:Hp; [|discriminate].
  apply position_Some in Hp as [Hi Hk]. intros [= <- <-]. exists i.
  destruct e as [k t]; simpl in *; subst. auto.
Qed.

Lemma lru_Get_miss key c o c' :
  lru_Get key c = (o, c') → o = None → (key ∉ (entries c).*1) ∧ c' = c.
Proof.
  unfold lru_Get. destruct (position key c) as [[i e]|] eqn:Hp.
  - intros [= <- <-]. discriminate.
  - intros [= <- <-] _. split; [by apply position_None|done].
Qed.

Lemma GetTrie_found f rootHash trie f' :
  GetTrie f rootHash = (Ok trie, f') →
  ∃ i, entries (tries f) !! i = Some (rootHash, trie)
       ∧ entries (tries f') = delete i (entries (tries f)) ++ [(rootHash, trie)]
       ∧ size (tries f') = size (tries f)
       ∧ forestCapacity f' = forestCapacity f
       ∧ onTreeEvicted f' = onTreeEvicted f
       ∧ evicted f' = evicted f.
Proof.
  unfold GetTrie. destruct (lru_Get rootHash (tries f)) as [[t|] c] eqn:Hg; [|discriminate].
  intros [= <- <-]. apply lru_Get_hit in Hg as (i & Hi & He & Hs). exists i. simpl.
  repeat split; auto.
Qed.

Lemma GetTrie_missing f rootHash err f' :
  GetTrie f rootHash = (Err err, f') → (rootHash ∉ (entries (tries f)).*1) ∧ f' = f.
Proof.
  unfold GetTrie. destruct (lru_Get rootHash (tries f)) as [[t|] c] eqn:Hg; [discriminate|].
  intros [= <- <-]. apply lru_Get_miss in Hg as [Hn _]; auto.
Qed.

Lemma GetTrie_unknown f rootHash :
  rootHash ∉ (entries (tries f)).*1 →
  GetTrie f rootHash = (Err "trie with the given rootHash not found", f).
Proof.
  intros Hn. unfold GetTrie, lru_Get. apply position_None in Hn. by rewrite Hn.
Qed.

Lemma touched_Permutation {A} (l : list A) i x :
  l !! i = Some x → delete i l ++ [x] ≡ₚ l.
Proof.
  intros Hi. rewrite (delete_Permutation l i x Hi) at 2.
  by rewrite Permutation_app_comm.
Qed.

Lemma sound_Permutation f f' :
  sound f → entries (tries f') ≡ₚ entries (tries f) →
  size (tries f') = size (tries f) → forestCapacity f' = forestCapacity f →
  sound f'.
Proof.
  intros (Hf & Hnd & Hc & Hp & Hl) He Hs Hcap. unfold sound.
  rewrite He, Hs, Hcap. auto.
Qed.

Lemma GetTrie_sound f rootHash r f' :
  sound f → GetTrie f rootHash = (r, f') → sound f'.
Proof.
  intros Hs Hg. destruct r as [trie|err].
  - apply GetTrie_found in Hg as (i & Hi & He & Hsz & Hcap & _).
    apply (sound_Permutation f); auto. rewrite He. by apply touched_Permutation.
  - apply GetTrie_missing in Hg as [_ ->]. done.
Qed.

Lemma AddTrie_known f newTrie trie f' :
  GetTrie f (RootHashOf newTrie) = (Ok trie, f') →
  AddTrie f (Some newTrie)
  = (if Equals trie newTrie then None
     else Some "forest already contains a tree with same root hash but other properties",
     f').
Proof.
  unfold AddTrie, GetTrie.
  destruct (lru_Get (RootHashOf newTrie) (tries f)) as [[t|] c]; [|discriminate].
  intros [= <- <-]. by destruct (Equals t newTrie).
Qed.

Lemma AddTrie_new f newTrie :
  RootHashOf newTrie ∉ (entries (tries f)).*1 →
  AddTrie f (Some newTrie)
  = (None,
     let es := entries (tries f) ++ [(RootHashOf newTrie, newTrie)] in
     let over := bool_decide (size (tries f) < length es) in
     {| tries := {| size := size (tries f); entries := if over then tail es else es |};
        forestCapacity := forestCapacity f;
        onTreeEvicted := onTreeEvicted f;
        evicted := if over then evict f (head es) else evicted f |}).
Proof.
  intros Hn. apply position_None in Hn. unfold AddTrie, lru_Get, lru_Add. rewrite Hn.
  simpl. case_decide as Hlt.
  - by rewrite bool_decide_eq_true_2.
  - rewrite bool_decide_eq_false_2 by done. unfold evict. by destruct (onTreeEvicted f).
Qed.

Lemma AddTrie_sound f newTrie err f' :
  sound f → AddTrie f newTrie = (err, f') → sound f'.
Proof.
  intros Hs Ha. destruct newTrie as [t|]; [|by injection Ha as <- <-].
  destruct (GetTrie f (RootHashOf t)) as [[s|e] f1] eqn:Hg.
  - rewrite (AddTrie_known _ _ _ _ Hg) in Ha. injection Ha as <- <-.
    by eapply GetTrie_sound.
  - apply GetTrie_missing in Hg as [Hn _]. rewrite (AddTrie_new _ _ Hn) in Ha.
    injection Ha as <- <-. destruct Hs as (Hf & Hnd & Hc & Hp & Hl).
    unfold sound. simpl. rewrite length_app. simpl.
    destruct (entries (tries f)) as [|e0 es] eqn:He.
    + rewrite bool_decide_eq_false_2 by (simpl; lia). simpl.
      repeat split; auto using NoDup_singleton.
    + assert (Forall (λ e, e.1 = RootHashOf e.2) (es ++ [(RootHashOf t, t)])) as Hf'.
      { apply Forall_app. split; [by inversion Hf|by constructor]. }
      assert (NoDup (es ++ [(RootHashOf t, t)]).*1) as Hnd'.
      { rewrite fmap_app. simpl in *. apply NoDup_cons in Hnd as [_ Hnd].
        apply NoDup_app. repeat split; auto using NoDup_singleton.
        intros x Hx ->%list_elem_of_singleton. apply Hn. by right. }
      case_bool_decide; simpl in *.
      * split_and!; auto. rewrite length_app. simpl. lia.
      * split_and!; auto.
        -- constructor; [by inversion Hf|done].
        -- apply NoDup_cons in Hnd as [Hk Hnd]. apply NoDup_cons. split; [|done].
           rewrite fmap_app. simpl.
           intros [Hin|Heq%list_elem_of_singleton]%elem_of_app; [done|].
           apply Hn. rewrite <- Heq. by left.
        -- rewrite length_app in *. simpl in *. lia.
Qed.

Lemma AddTries_sound f newTries err f' :
  sound f → AddTries f newTries = (err, f') → sound f'.
Proof.
  revert f. induction newTries as [|t ts IH]; intros f Hs; simpl.
  - by intros [= <- <-].
  - destruct (AddTrie f t) as [[e|] f1] eqn:Ha.
    + intros [= <- <-]. by eapply AddTrie_sound.
    + apply IH. by eapply AddTrie_sound.
Qed.

Lemma RemoveTrie_entries f rootHash :
  entries (tries (RemoveTrie f rootHash))
  = match position rootHash (tries f) with
    | Some (i, _) => delete i (entries (tries f))
    | None => entries (tries f)
    end
  ∧ size (tries (RemoveTrie f rootHash)) = size (tries f)
  ∧ forestCapacity (RemoveTrie f rootHash) = forestCapacity f.
Proof.
  unfold RemoveTrie, lru_Remove. by destruct (position rootHash (tries f)) as [[i e]|].
Qed.

Lemma RemoveTrie_sound f rootHash : sound f → sound (RemoveTrie f rootHash).
Proof.
  intros (Hf & Hnd & Hc & Hp & Hl).
  destruct (RemoveTrie_entries f rootHash) as (He & Hs & Hcap).
  unfold sound. rewrite He, Hs, Hcap.
  destruct (position rootHash (tries f)) as [[i e]|] eqn:Hpos; [|done].
  apply position_Some in Hpos as [Hi _].
  pose proof (delete_Permutation _ _ _ Hi) as Hperm.
  rewrite Hperm in Hf, Hnd, Hl. simpl in *.
  apply Forall_cons in Hf as [_ Hf]. apply NoDup_cons in Hnd as [_ Hnd].
  repeat split; auto. lia.
Qed.

Lemma Read_sound f r res f' : sound f → Read f r = Returns (res, f') → sound f'.
Proof.
  intros Hs. unfold Read. case_decide; [by intros [= <- <-]|].
  destruct (GetTrie f (ReadRootHash r)) as [[t|e] f1] eqn:Hg.
  - destruct (indexPaths (ReadPaths r)) as [dp org].
    destruct (UnsafeRead t dp) as [dp' pls].
    destruct (reorder 0 dp' pls org _); simpl; try discriminate.
    intros [= <- <-]. by eapply GetTrie_sound.
  - intros [= <- <-]. by eapply GetTrie_sound.
Qed.

Lemma Update_sound f u rootHash err f' :
  sound f → Update f u = Returns (rootHash, err, f') → sound f'.
Proof.
  intros Hs. unfold Update.
  destruct (GetTrie f (UpdateRootHash u)) as [[t|e] f1] eqn:Hg;
    [|intros [= <- <- <-]; by eapply GetTrie_sound].
  apply GetTrie_sound in Hg; [|done].
  case_decide; [by intros [= <- <- <-]|].
  destruct (deduplicate (UpdatePaths u) (UpdatePayloads u)) as [[dp dpl]| |];
    cbn [andThen]; try discriminate.
  destruct (NewTrieWithUpdatedRegisters t dp dpl) as [newTrie|e];
    [|by intros [= <- <- <-]].
  destruct (AddTrie f1 (Some newTrie)) as [[e|] f2] eqn:Ha;
    intros [= <- <- <-]; by eapply AddTrie_sound.
Qed.

Lemma NewForest_sound capacity callback f :
  NewForest capacity callback = Ok f → sound f.
Proof.
  unfold NewForest, lru_New. case_decide as Hc; [discriminate|].
  destruct (AddTrie _ (Some NewEmptyMTrie)) as [[e|] f1] eqn:Ha; [discriminate|].
  intros [= <-]. eapply AddTrie_sound; [|exact Ha].
  unfold sound. simpl. repeat split; auto using NoDup_nil_2; lia.
Qed.

Lemma reached_sound capacity callback f : reached capacity callback f → sound f.
Proof.
  induction 1; eauto using NewForest_sound, GetTrie_sound, AddTrie_sound,
    AddTries_sound, RemoveTrie_sound, Read_sound, Update_sound.
Qed.

Lemma reached_capacity capacity callback f :
  reached capacity callback f → forestCapacity f = capacity.
Proof.
  assert (∀ g t e g', AddTrie g t = (e, g') → forestCapacity g' = forestCapacity g) as Hadd.
  { intros g [t|] e g'; [|by intros [= <- <-]]. unfold AddTrie.
    destruct (lru_Get _ _) as [[s|] c].
    - destruct (Equals s t); by intros [= <- <-].
    - destruct (lru_Add _ _ _). by intros [= <- <-]. }
  assert (∀ g h r g', GetTrie g h = (r, g') → forestCapacity g' = forestCapacity g) as Hget.
  { intros g h r g'. unfold GetTrie. destruct (lru_Get _ _) as [[s|] c]; by intros [= <- <-]. }
  induction 1 as [f Hn|f h r f' _ IH Hg|f t e f' _ IH Ha|f ts e f' _ IH Ha|f h _ IH
                  |f r res f' _ IH Hr|f u h e f' _ IH Hu].
  - unfold NewForest in Hn. destruct (lru_New capacity) as [c|]; [|discriminate].
    destruct (AddTrie _ _) as [[e|] f1] eqn:Ha; [discriminate|].
    injection Hn as <-. by rewrite (Hadd _ _ _ _ Ha).
  - by rewrite (Hget _ _ _ _ Hg).
  - by rewrite (Hadd _ _ _ _ Ha).
  - revert f IH Ha. induction ts as [|t ts IHts]; intros f IH; simpl.
    + by intros [= <- <-].
    + destruct (AddTrie f t) as [[e1|] f1] eqn:Ha1.
      * intros [= <- <-]. by rewrite (Hadd _ _ _ _ Ha1).
      * apply IHts. by rewrite (Hadd _ _ _ _ Ha1).
  - by destruct (RemoveTrie_entries f h) as (_ & _ & ->).
  - unfold Read in Hr. case_decide; [by injection Hr as <- <-|].
    destruct (GetTrie f (ReadRootHash r)) as [[t|e] f1] eqn:Hg.
    + destruct (indexPaths (ReadPaths r)) as [dp org].
      destruct (UnsafeRead t dp) as [dp' pls].
      destruct (reorder 0 dp' pls org _); simpl in Hr; try discriminate.
      injection Hr as <- <-. by rewrite (Hget _ _ _ _ Hg).
    + injection Hr as <- <-. by rewrite (Hget _ _ _ _ Hg).
  - unfold Update in Hu.
    destruct (GetTrie f (UpdateRootHash u)) as [[t|e0] f1] eqn:Hg;
      [|injection Hu as <- <- <-; by rewrite (Hget _ _ _ _ Hg)].
    apply Hget in Hg. case_decide; [injection Hu as <- <- <-; congruence|].
    destruct (deduplicate (UpdatePaths u) (UpdatePayloads u)) as [[dp dpl]| |];
      cbn [andThen] in Hu; try discriminate.
    destruct (NewTrieWithUpdatedRegisters t dp dpl) as [newTrie|e1];
      [|injection Hu as <- <- <-; congruence].
    destruct (AddTrie f1 (Some newTrie)) as [[e1|] f2] eqn:Ha;
      injection Hu as <- <- <-; apply Hadd in Ha; congruence.
Qed.

(** The first loop of [Read]: every path is kept once, and is indexed by
    exactly the positions it was asked at. *)
Lemma indexPaths_spec paths :
  (∀ p, p ∈ (indexPaths paths).1 ↔ p ∈ paths)
  ∧ NoDup (indexPaths paths).1
  ∧ (∀ p, (indexPaths paths).2 !! p = None ↔ p ∉ paths)
  ∧ (∀ p j, j ∈ default [] ((indexPaths paths).2 !! p) ↔ paths !! j = Some p).
Proof.
  unfold indexPaths. induction paths as [|x l IH] using rev_ind.
  - simpl. split_and!.
    + done.
    + constructor.
    + intros p. rewrite lookup_empty. split; [intros _; apply not_elem_of_nil|done].
    + intros p j. rewrite lookup_empty. simpl. split; [by intros ?%elem_of_nil|done].
  - rewrite imap_app, foldl_app. simpl. rewrite Nat.add_0_r.
    destruct (foldl collect ([], ∅) (imap pair l)) as [dp org]. simpl in IH.
    destruct IH as (Hin & Hnd & Hnone & Hidx). unfold collect.
    destruct (org !! x) as [indices|] eqn:Hx; simpl.
    + assert (x ∈ l) as Hxl.
      { destruct (decide (x ∈ l)) as [|n]; [done|]. apply Hnone in n. congruence. }
      split_and!.
      * intros p. rewrite Hin, elem_of_app, list_elem_of_singleton. intuition congruence.
      * done.
      * intros p. destruct (decide (p = x)) as [->|Hne].
        -- rewrite lookup_insert_eq. split; [done|]. intros Hn. exfalso. apply Hn.
           apply elem_of_app. by left.
        -- rewrite lookup_insert_ne by done.
           rewrite Hnone, elem_of_app, list_elem_of_singleton. intuition congruence.
      * intros p j. rewrite lookup_snoc_Some. destruct (decide (p = x)) as [->|Hne].
        -- rewrite lookup_insert_eq. simpl. rewrite elem_of_app, list_elem_of_singleton.
           specialize (Hidx x j). rewrite Hx in Hidx. simpl in Hidx. rewrite Hidx.
           split; [|intuition congruence].
           intros [Hl| ->]; [left; split; [by eapply lookup_lt_Some|done]|by right].
        -- rewrite lookup_insert_ne by done. rewrite Hidx. split; [|intuition congruence].
           intros Hl; left; split; [by eapply lookup_lt_Some|done].
    + assert (x ∉ l) as Hxl by (by apply Hnone).
      split_and!.
      * intros p. rewrite !elem_of_app, Hin. done.
      * apply NoDup_app. split_and!; auto using NoDup_singleton.
        intros p Hp ->%list_elem_of_singleton. by apply Hin in Hp.
      * intros p. destruct (decide (p = x)) as [->|Hne].
        -- rewrite lookup_insert_eq. split; [done|]. intros Hn. exfalso. apply Hn.
           apply elem_of_app. right. by apply list_elem_of_singleton.
        -- rewrite lookup_insert_ne by done.
           rewrite Hnone, elem_of_app, list_elem_of_singleton. intuition congruence.
      * intros p j. rewrite lookup_snoc_Some. destruct (decide (p = x)) as [->|Hne].
        -- rewrite lookup_insert_eq. simpl. rewrite list_elem_of_singleton.
           split; [by right|]. intros [[_ Hl]|[-> _]]; [|done].
           exfalso. apply Hxl. by eapply list_elem_of_lookup_2.
        -- rewrite lookup_insert_ne by done. rewrite Hidx. split; [|intuition congruence].
           intros Hl; left; split; [by eapply lookup_lt_Some|done].
Qed.

(** The inner loop of [Read]: within range it writes the payload at the given
    positions and nowhere else. *)
Lemma spread_spec payload indices l :
  (∀ j, j ∈ indices → j < length l) →
  ∃ l', spread payload indices l = Returns l' ∧ length l' = length l
        ∧ ∀ j, l' !! j = if decide (j ∈ indices) then Some (Some payload) else l !! j.
Proof.
  unfold spread. revert l. induction indices as [|i indices IH]; intros l Hr;
    cbn [foldl andThen].
  - exists l. split_and!; auto.
  - unfold store at 2. rewrite decide_True by (apply Hr; left).
    destruct (IH (<[i := Some payload]> l)) as (l' & Hs & Hl & Hj).
    { intros j Hjin. rewrite length_insert. apply Hr. by right. }
    exists l'. rewrite length_insert in Hl. split_and!; auto.
    intros j. rewrite Hj. destruct (decide (j = i)) as [->|Hne].
    + rewrite (decide_True (P := i ∈ i :: indices)) by left.
      case_decide; [done|]. apply list_lookup_insert_eq. apply Hr. left.
    + rewrite list_lookup_insert_ne by done.
      destruct (decide (j ∈ indices)) as [Hin|Hin].
      * by rewrite decide_True by (by right).
      * rewrite decide_False; [done|]. by intros [?|?]%elem_of_cons.
Qed.

(** The second loop of [Read], on payloads aligned with the paths. *)
Lemma reorder_spec (value : Path → Payload) paths org ps payloads :
  (∀ p j, j ∈ default [] (org !! p) ↔ paths !! j = Some p) →
  ∀ i l,
  length l = length paths →
  (∀ k p, ps !! k = Some p → payloads !! (i + k) = Some (value p)) →
  ∃ l', reorder i ps payloads org l = Returns l' ∧ length l' = length l
        ∧ ∀ j, l' !! j = match paths !! j with
                         | Some p => if decide (p ∈ ps) then Some (Some (value p))
                                     else l !! j
                         | None => l !! j
                         end.
Proof.
  intros Hidx. induction ps as [|p0 ps IH]; intros i l Hlen Hal; simpl.
  - exists l. split_and!; auto. intros j. by destruct (paths !! j).
  - pose proof (Hal 0 p0 eq_refl) as Hfirst. rewrite Nat.add_0_r in Hfirst.
    unfold load. rewrite Hfirst. cbn [andThen].
    destruct (spread_spec (value p0) (default [] (org !! p0)) l) as (l1 & Hs & Hl1 & Hj1).
    { intros j Hj. apply Hidx in Hj. apply lookup_lt_Some in Hj. lia. }
    rewrite Hs. cbn [andThen].
    destruct (IH (S i) l1) as (l' & Hr & Hl' & Hj').
    { congruence. }
    { intros k p Hk. replace (S i + k) with (i + S k) by lia. by apply Hal. }
    exists l'. split_and!; [done|congruence|].
    intros j. rewrite Hj', Hj1. destruct (paths !! j) as [p|] eqn:Hp.
    + destruct (decide (p = p0)) as [->|Hne].
      * rewrite (decide_True (P := p0 ∈ p0 :: ps)) by left.
        rewrite (decide_True (P := j ∈ _)) by (by apply Hidx).
        by case_decide.
      * rewrite (decide_False (P := j ∈ _)) by (rewrite Hidx; congruence).
        destruct (decide (p ∈ ps)) as [Hin|Hin].
        -- by rewrite decide_True by (by right).
        -- rewrite decide_False; [done|]. by intros [?|?]%elem_of_cons.
    + rewrite decide_False; [done|]. rewrite Hidx, Hp. done.
Qed.

End ForestFacts.
